(** * iolib: a shallow embedding of [c20stdiolib.hpp]

    The header wraps [std::fstream] in a move-only [FileStream] class, wraps
    [std::cin]/[std::cout] in a stateless [Console] class and offers four
    free functions ([read_file], [write_file], [append_file], [read_lines]).

    The C++ standard library is the environment of that code.  It is
    modelled here following the C++20 standard ([filebuf], [istream],
    [ostream] clauses), with libstdc++'s choices where the standard leaves a
    value open:
    - the operating system is a store of regular files, keyed by path; it
      has a set of paths it refuses to open for output (the empty name, a
      name in a missing directory, a directory, a file without write
      permission) and a largest file offset;
    - the store holds the content a file has once the buffers on it are
      flushed: a file buffer is modelled as writing through, and what
      another reader sees while a stream is still open for output is not
      part of the model; statements about file content are meant at the
      points where the real buffer is flushed (close, destruction);
    - stream offsets are mathematical integers; [size_t] has 64 bits;
    - C++ exceptions are the [Throw] case of a [result]. *)

From Stdlib Require Import ZArith Strings.Byte.
From stdpp Require Import gmap strings list.

Open Scope Z_scope.

(** ** Byte strings ([std::string]) *)

Abbreviation bytes := (list byte).

Definition NL : byte := x0a.   (* '\n' *)
Definition NUL : byte := x00.  (* '\0' *)

(** ** Error model *)

(** [class IOError : std::runtime_error]; [what] is the message held by the
    base class. *)
Record IOError := { what : string }.

(** [explicit IOError(const std::string& msg) : std::runtime_error("IOError: " + msg)] *)
Definition IOError_new (msg : string) : IOError :=
  {| what := "IOError: " +:+ msg |}.

(** A call either returns or leaves by an [IOError] exception. *)
Inductive result (A : Type) : Type :=
  | Ok (a : A)
  | Throw (e : IOError).
Arguments Ok {A} a.
Arguments Throw {A} e.

(** ** Typed read/write contract *)

(** [concept Writable]: [os << t] is defined; [render] is the character
    sequence the insertion produces. *)
Class Writable (T : Type) := { render : T -> bytes }.

(** [std::string]: inserted verbatim (the field width is never set). *)
#[export] Instance Writable_string : Writable bytes := { render := fun s => s }.

(** [char]. *)
#[export] Instance Writable_char : Writable byte := { render := fun c => [c] }.

(** ** [std::ios_base] *)

(** [std::ios_base::openmode], a bitmask type; the values are libstdc++'s. *)
Module ios.
Definition app : Z := 1.
Definition ate : Z := 2.
Definition binary : Z := 4.
Definition in_ : Z := 8.
Definition out : Z := 16.
Definition trunc : Z := 32.
End ios.

Definition has_flag (flags f : Z) : bool := negb (Z.land flags f =? 0).

(** [std::ios_base::iostate]. *)
Record iostate := IoState { eofbit : bool; failbit : bool; badbit : bool }.

Definition goodbit : iostate := IoState false false false.

Definition good (st : iostate) : bool :=
  negb (eofbit st || failbit st || badbit st).

(** [fail()], which is also what [operator!] returns. *)
Definition fail (st : iostate) : bool := failbit st || badbit st.

Definition set_eof (st : iostate) : iostate := IoState true (failbit st) (badbit st).
Definition set_fail (st : iostate) : iostate := IoState (eofbit st) true (badbit st).
Definition set_bad (st : iostate) : iostate := IoState (eofbit st) (failbit st) true.
Definition clear_eof (st : iostate) : iostate := IoState false (failbit st) (badbit st).

(** ** The operating system: files and open handles *)

Record world := MkWorld {
  files : gmap string bytes;   (* path -> content *)
  open_fds : gset nat;         (* handles currently open *)
  unwritable : gset string;    (* paths the system refuses to open for output *)
  max_offset : Z               (* the largest file offset the system supports *)
}.

Definition set_files (w : world) (fs : gmap string bytes) : world :=
  MkWorld fs (open_fds w) (unwritable w) (max_offset w).

Definition set_open_fds (w : world) (fds : gset nat) : world :=
  MkWorld (files w) fds (unwritable w) (max_offset w).

(** A system that refuses only the empty file name and supports every
    offset of a 64-bit [off_t]. *)
Definition World (fs : gmap string bytes) (fds : gset nat) : world :=
  MkWorld fs fds {[EmptyString]} (2 ^ 63 - 1).

Definition file_content (w : world) (path : string) : bytes :=
  default [] (files w !! path).

(** The [fopen] mode an [openmode] selects ([filebuf.members], table of file
    open modes); [binary] only appends "b" and [ate] is masked out. *)
Inductive cmode := C_r | C_w | C_a | C_rplus | C_wplus | C_aplus.

Definition fopen_mode (flags : Z) : option cmode :=
  let m := Z.land flags (Z.lor (Z.lor ios.in_ ios.out) (Z.lor ios.trunc ios.app)) in
  if m =? ios.out then Some C_w
  else if m =? Z.lor ios.out ios.app then Some C_a
  else if m =? ios.app then Some C_a
  else if m =? Z.lor ios.out ios.trunc then Some C_w
  else if m =? ios.in_ then Some C_r
  else if m =? Z.lor ios.in_ ios.out then Some C_rplus
  else if m =? Z.lor (Z.lor ios.in_ ios.out) ios.trunc then Some C_wplus
  else if m =? Z.lor (Z.lor ios.in_ ios.out) ios.app then Some C_aplus
  else if m =? Z.lor ios.in_ ios.app then Some C_aplus
  else None.

(** What [fopen] does to the file store, or [None] when it fails: "r" and
    "r+" need the file, "w" and "w+" create or truncate it, "a" and "a+"
    create it when missing; every mode but "r" opens for output and fails
    on a path the system refuses to open for output. *)
Definition fopen_files (w : world) (path : string) (m : cmode)
  : option (gmap string bytes) :=
  let fs := files w in
  match m with
  | C_r =>
      match fs !! path with Some _ => Some fs | None => None end
  | C_rplus =>
      if decide (path ∈ unwritable w) then None
      else match fs !! path with Some _ => Some fs | None => None end
  | C_w | C_wplus =>
      if decide (path ∈ unwritable w) then None
      else Some (<[path := []]> fs)
  | C_a | C_aplus =>
      if decide (path ∈ unwritable w) then None
      else match fs !! path with
           | Some _ => Some fs
           | None => Some (<[path := []]> fs)
           end
  end.

(** Where the file position is after [fopen]: at the end of the file in
    mode "a" (the C library seeks there), at the start otherwise. *)
Definition fopen_pos (fs : gmap string bytes) (path : string) (m : cmode) : nat :=
  match m with
  | C_a => length (default [] (fs !! path))
  | _ => 0%nat
  end.

(** ** [std::basic_filebuf] *)

(** An open file buffer: the handle it owns, the file it is on, the mode it
    was opened in and the file position (one position for both directions). *)
Record filebuf := FileBuf {
  fb_fd : nat;
  fb_path : string;
  fb_mode : Z;
  fb_pos : nat
}.

Definition fb_set_pos (fb : filebuf) (pos : nat) : filebuf :=
  FileBuf (fb_fd fb) (fb_path fb) (fb_mode fb) pos.

(** [basic_filebuf::open]: a fresh handle on success. *)
Definition filebuf_open (w : world) (path : string) (flags : Z)
  : option (world * filebuf) :=
  match fopen_mode flags with
  | None => None
  | Some m =>
      match fopen_files w path m with
      | None => None
      | Some fs =>
          let fd := fresh (open_fds w) in
          Some (set_open_fds (set_files w fs) ({[fd]} ∪ open_fds w),
                FileBuf fd path flags (fopen_pos fs path m))
      end
  end.

(** [basic_filebuf::close]: the handle is given back. *)
Definition filebuf_close (w : world) (fb : filebuf) : world :=
  set_open_fds w (open_fds w ∖ {[fb_fd fb]}).

Definition can_read (fb : filebuf) : bool := has_flag (fb_mode fb) ios.in_.
Definition can_write (fb : filebuf) : bool :=
  has_flag (fb_mode fb) ios.out || has_flag (fb_mode fb) ios.app.

(** The characters between the file position and the end of the file; none
    when the buffer was not opened for input ([underflow] fails). *)
Definition filebuf_avail (w : world) (fb : filebuf) : bytes :=
  if can_read fb then drop (fb_pos fb) (file_content w (fb_path fb)) else [].

(** Writing [d] at offset [pos] of [c]; a gap past the end reads as zeros. *)
Definition overwrite (c : bytes) (pos : nat) (d : bytes) : bytes :=
  take pos c ++ replicate (pos - length c) NUL ++ d ++ drop (pos + length d) c.

(** [xsputn]: the characters go to the end of the file in append mode and
    to the file position otherwise; the position reported afterwards is the
    former one plus the number of characters taken.  The real buffer keeps
    the characters until it is flushed (on a seek, on close, when it is
    full); the store is updated here at once, and so stands for the file as
    it is after the next flush.  [None] when the buffer was not opened for
    output. *)
Definition filebuf_write (w : world) (fb : filebuf) (d : bytes)
  : option (world * filebuf) :=
  if can_write fb then
    let c := file_content w (fb_path fb) in
    if has_flag (fb_mode fb) ios.app then
      Some (set_files w (<[fb_path fb := c ++ d]> (files w)),
            fb_set_pos fb (fb_pos fb + length d))
    else
      Some (set_files w (<[fb_path fb := overwrite c (fb_pos fb) d]> (files w)),
            fb_set_pos fb (fb_pos fb + length d))
  else None.

(** ** [std::fstream] *)

(** [buf] is [None] when the file buffer is closed. *)
Record fstream := FStream { buf : option filebuf; state : iostate }.

Definition fstream_is_open (s : fstream) : bool :=
  match buf s with Some _ => true | None => false end.

Definition setstate (s : fstream) (f : iostate -> iostate) : fstream :=
  FStream (buf s) (f (state s)).

(** [std::fstream stream(path, flags)]: [failbit] when the open fails. *)
Definition fstream_new (w : world) (path : string) (flags : Z) : world * fstream :=
  match filebuf_open w path flags with
  | Some (w', fb) => (w', FStream (Some fb) goodbit)
  | None => (w, FStream None (set_fail goodbit))
  end.

(** [fstream::close]: [failbit] when the buffer was not open. *)
Definition fstream_close (w : world) (s : fstream) : world * fstream :=
  match buf s with
  | Some fb => (filebuf_close w fb, FStream None (state s))
  | None => (w, setstate s set_fail)
  end.

(** *** Input side ([std::basic_istream]) *)

(** [istream::sentry(is, true)]: [failbit] is set when the stream is not
    good.  The streams of this program are tied to nothing and the
    unformatted functions skip no whitespace. *)
Definition isentry (s : fstream) : fstream * bool :=
  if good (state s) then (s, true) else (setstate s set_fail, false).

Inductive seekdir := beg | cur | end_.

(** Where a relative seek starts from. *)
Definition seek_base (w : world) (fb : filebuf) (way : seekdir) : Z :=
  match way with
  | beg => 0
  | cur => Z.of_nat (fb_pos fb)
  | end_ => Z.of_nat (length (file_content w (fb_path fb)))
  end.

(** The offsets the system accepts for the file of [fb]: none before the
    start and none beyond its largest file offset (an offset inside the
    file is always accepted: no file is larger than the system allows). *)
Definition seekable (w : world) (fb : filebuf) (p : Z) : bool :=
  (0 <=? p) &&
  ((p <=? max_offset w) || (p <=? Z.of_nat (length (file_content w (fb_path fb))))).

(** [rdbuf()->pubseekoff(off, way, which)]: a file buffer ignores [which];
    the seek fails on a closed buffer and to an offset the system does not
    accept; asking for the current position ([off = 0] from [cur]) moves
    nothing and always succeeds on an open buffer.  The result is the new
    position, or [-1]. *)
Definition pubseekoff (w : world) (s : fstream) (off : Z) (way : seekdir)
  : fstream * Z :=
  match buf s with
  | None => (s, -1)
  | Some fb =>
      let p := seek_base w fb way + off in
      let tells := match way with cur => off =? 0 | _ => false end in
      if tells || seekable w fb p
      then (FStream (Some (fb_set_pos fb (Z.to_nat p))) (state s), p)
      else (s, -1)
  end.

(** [rdbuf()->pubseekpos(pos, which)]. *)
Definition pubseekpos (w : world) (s : fstream) (pos : Z) : fstream * Z :=
  pubseekoff w s pos beg.

(** [seekg(off, dir)]: clears [eofbit], constructs a sentry and, unless
    [fail()], seeks; a failed seek sets [failbit]. *)
Definition seekg_off (w : world) (s : fstream) (off : Z) (dir : seekdir) : fstream :=
  let s0 := setstate s clear_eof in
  let (s1, _) := isentry s0 in
  if fail (state s1) then s1
  else
    let (s2, p) := pubseekoff w s1 off dir in
    if p =? -1 then setstate s2 set_fail else s2.

(** [seekg(pos)]. *)
Definition seekg (w : world) (s : fstream) (pos : Z) : fstream :=
  seekg_off w s pos beg.

(** [tellg()]: constructs a sentry; [-1] when [fail()], the position of the
    buffer otherwise ([-1] again when the buffer is closed). *)
Definition tellg (w : world) (s : fstream) : fstream * Z :=
  let (s1, _) := isentry s in
  if fail (state s1) then (s1, -1)
  else pubseekoff w s1 0 cur.

(** The characters [sgetn] can deliver, at most [n] of them. *)
Definition sgetn (w : world) (s : fstream) (n : nat) : fstream * bytes :=
  match buf s with
  | None => (s, [])
  | Some fb =>
      let data := take n (filebuf_avail w fb) in
      (FStream (Some (fb_set_pos fb (fb_pos fb + length data))) (state s), data)
  end.

(** [read(dst, n)]: stores the characters read over the front of [dst];
    fewer than [n] of them set [eofbit] and [failbit]. *)
Definition istream_read (w : world) (s : fstream) (dst : bytes) (n : Z)
  : fstream * bytes :=
  let (s1, ok) := isentry s in
  if ok then
    let (s2, data) := sgetn w s1 (Z.to_nat n) in
    let s3 := if (length data <? Z.to_nat n)%nat
              then setstate (setstate s2 set_eof) set_fail else s2 in
    (s3, data ++ drop (length data) dst)
  else (s1, dst).

(** The scan of [std::getline]: the characters before the first ['\n'], how
    many characters were extracted (the delimiter is extracted and dropped)
    and whether the end of the input was reached instead of a delimiter. *)
Fixpoint getline_scan (l : bytes) : bytes * nat * bool :=
  match l with
  | [] => ([], 0%nat, true)
  | c :: r =>
      if Byte.eqb c NL then ([], 1%nat, false)
      else let '(ln, n, e) := getline_scan r in (c :: ln, S n, e)
  end.

(** [std::getline(is, str)]: after a successful sentry [str] is erased and
    filled; [eofbit] at the end of the input, [failbit] when nothing was
    extracted.  [str] is returned unchanged when the sentry fails. *)
Definition getline (w : world) (s : fstream) (str : bytes) : fstream * bytes :=
  let (s1, ok) := isentry s in
  if ok then
    let avail := match buf s1 with Some fb => filebuf_avail w fb | None => [] end in
    let '(ln, n, e) := getline_scan avail in
    let s2 := match buf s1 with
              | Some fb => FStream (Some (fb_set_pos fb (fb_pos fb + n))) (state s1)
              | None => s1
              end in
    let s3 := if e then setstate s2 set_eof else s2 in
    let s4 := if (n =? 0)%nat then setstate s3 set_fail else s3 in
    (s4, ln)
  else (s1, str).

(** *** Output side ([std::basic_ostream]) *)

(** [ostream::sentry]: fine when the stream is good; otherwise nothing will
    be written, and [failbit] joins a set [badbit]. *)
Definition osentry (s : fstream) : fstream * bool :=
  if good (state s) then (s, true)
  else if badbit (state s) then (setstate s set_fail, false)
  else (s, false).

(** [os << str] for a character sequence: [badbit] when the buffer takes
    fewer characters than offered. *)
Definition ostream_insert (w : world) (s : fstream) (d : bytes) : world * fstream :=
  let (s1, ok) := osentry s in
  if ok then
    match d with
    | [] => (w, s1)
    | _ =>
        match buf s1 with
        | None => (w, setstate s1 set_bad)
        | Some fb =>
            match filebuf_write w fb d with
            | Some (w', fb') => (w', FStream (Some fb') (state s1))
            | None => (w, setstate s1 set_bad)
            end
        end
    end
  else (w, s1).

(** [seekp(pos)]: unless [fail()], seeks; a failed seek sets [failbit]. *)
Definition seekp (w : world) (s : fstream) (pos : Z) : fstream :=
  if fail (state s) then s
  else
    let (s1, p) := pubseekpos w s pos in
    if p =? -1 then setstate s1 set_fail else s1.

(** *** Moves *)

(** [fstream(fstream&& rhs)]: the new stream has the state and the file of
    [rhs]; [rhs] keeps its state bits and is left closed.  Returns the new
    stream and what is left of [rhs]. *)
Definition fstream_move (rhs : fstream) : fstream * fstream :=
  (FStream (buf rhs) (state rhs), FStream None (state rhs)).

(** [lhs = std::move(rhs)]: the stream bases are swapped; the file buffer of
    [lhs] is closed and then takes the file of [rhs], which is left closed. *)
Definition fstream_move_assign (w : world) (lhs rhs : fstream)
  : world * fstream * fstream :=
  let w' := match buf lhs with Some fb => filebuf_close w fb | None => w end in
  (w', FStream (buf rhs) (state rhs), FStream None (state lhs)).

(** ** [FileStream] *)

Inductive FileMode := Read | Write | Append | ReadWrite.

(** The class has one data member, [mutable std::fstream stream_]. *)
Record FileStream := MkFileStream { stream_ : fstream }.

(** [static std::fstream open_stream(const std::string& path, FileMode mode)] *)
Definition open_flags (mode : FileMode) : Z :=
  let flags := ios.binary in
  match mode with
  | Read => Z.lor flags ios.in_
  | Write => Z.lor flags (Z.lor ios.out ios.trunc)
  | Append => Z.lor flags (Z.lor ios.out ios.app)
  | ReadWrite => Z.lor flags (Z.lor ios.in_ ios.out)
  end.

Definition open_stream (w : world) (path : string) (mode : FileMode)
  : result (world * fstream) :=
  let flags := open_flags mode in
  let (w', stream) := fstream_new w path flags in
  if negb (fstream_is_open stream)
  then Throw (IOError_new ("Failed to open file: " +:+ path))
  else Ok (w', stream).

(** [explicit FileStream(const std::string& path, FileMode mode = FileMode::Read)] *)
Definition FileStream_new (w : world) (path : string) (mode : FileMode)
  : result (world * FileStream) :=
  match open_stream w path mode with
  | Ok (w', s) => Ok (w', MkFileStream s)
  | Throw e => Throw e
  end.

(** [~FileStream()] *)
Definition FileStream_destroy (w : world) (f : FileStream) : world :=
  if fstream_is_open (stream_ f) then fst (fstream_close w (stream_ f)) else w.

(** [FileStream(FileStream&& other) noexcept]: the new object and what is
    left of [other].  The copy constructor and the copy assignment are
    deleted: the class has no operation that duplicates a [FileStream]. *)
Definition FileStream_move (other : FileStream) : FileStream * FileStream :=
  let (s, o) := fstream_move (stream_ other) in (MkFileStream s, MkFileStream o).

(** The body of [operator=(FileStream&& other)] once [this != &other] is
    known: the target and what is left of [other]. *)
Definition FileStream_move_assign (w : world) (this other : FileStream)
  : world * FileStream * FileStream :=
  let (w1, s1) := if fstream_is_open (stream_ this)
                  then fstream_close w (stream_ this) else (w, stream_ this) in
  let '(w2, s2, o2) := fstream_move_assign w1 s1 (stream_ other) in
  (w2, MkFileStream s2, MkFileStream o2).

(** [bool is_open() const] *)
Definition is_open (f : FileStream) : bool := fstream_is_open (stream_ f).

(** [std::string read_all()] *)
Definition read_all (w : world) (f : FileStream) : FileStream * result bytes :=
  if fail (state (stream_ f))
  then (f, Throw (IOError_new "File not open for reading"))
  else
    let s1 := seekg_off w (stream_ f) 0 end_ in
    let (s2, size) := tellg w s1 in
    let s3 := seekg_off w s2 0 beg in
    if size <=? 0 then (MkFileStream s3, Ok [])
    else
      let content := replicate (Z.to_nat size) NUL in
      let (s4, content') := istream_read w s3 content size in
      (MkFileStream s4, Ok content').

(** [std::optional<std::string> read_line()] *)
Definition read_line (w : world) (f : FileStream) : FileStream * option bytes :=
  if fail (state (stream_ f)) then (f, None)
  else
    let line := [] in
    let (s1, line') := getline w (stream_ f) line in
    if negb (fail (state s1)) then (MkFileStream s1, Some line')
    else (MkFileStream s1, None).

(** [template <Writable T> void write(const T& value)] *)
Definition write {T} `{Writable T} (w : world) (f : FileStream) (value : T)
  : world * FileStream * result unit :=
  if fail (state (stream_ f))
  then (w, f, Throw (IOError_new "File not open for writing"))
  else
    let (w', s') := ostream_insert w (stream_ f) (render value) in
    (w', MkFileStream s', Ok tt).

(** [template <Writable T> void write_line(const T& value)] *)
Definition write_line {T} `{Writable T} (w : world) (f : FileStream) (value : T)
  : world * FileStream * result unit :=
  match write w f value with
  | (w1, f1, Ok _) =>
      let (w2, s2) := ostream_insert w1 (stream_ f1) (render NL) in
      (w2, MkFileStream s2, Ok tt)
  | r => r
  end.

(** [template <Writable... Args> void write_fmt(std::format_string<Args...>
    fmt, Args&&... args)]: [formatted] stands for the value of
    [std::format(fmt, std::forward<Args>(args)...)], which the formatting
    engine computes. *)
Definition write_fmt (w : world) (f : FileStream) (formatted : bytes)
  : world * FileStream * result unit :=
  if fail (state (stream_ f))
  then (w, f, Throw (IOError_new "File not open for writing"))
  else
    let (w', s') := ostream_insert w (stream_ f) formatted in
    (w', MkFileStream s', Ok tt).

(** [template <Writable... Args> void write_line_fmt(...)] *)
Definition write_line_fmt (w : world) (f : FileStream) (formatted : bytes)
  : world * FileStream * result unit :=
  match write_fmt w f formatted with
  | (w1, f1, Ok _) =>
      let (w2, s2) := ostream_insert w1 (stream_ f1) (render NL) in
      (w2, MkFileStream s2, Ok tt)
  | r => r
  end.

(** [void seek(size_t pos)] *)
Definition seek (w : world) (f : FileStream) (pos : Z) : FileStream :=
  let s1 := seekg w (stream_ f) pos in
  MkFileStream (seekp w s1 pos).

(** [size_t]: 64 bits; a conversion to it reduces modulo [2^64]. *)
Definition size_t_bits : Z := 64.
Definition SIZE_MAX : Z := 2 ^ size_t_bits - 1.
Definition to_size_t (z : Z) : Z := z mod 2 ^ size_t_bits.

(** [size_t tell() const] ([stream_] is [mutable]) *)
Definition tell (w : world) (f : FileStream) : FileStream * Z :=
  let (s1, p) := tellg w (stream_ f) in
  (MkFileStream s1, to_size_t p).

(** ** Free functions

    The local [FileStream file] is destroyed when the function is left,
    by a return or by an exception. *)

(** [std::string read_file(const std::string& path)] *)
Definition read_file (w : world) (path : string) : world * result bytes :=
  match FileStream_new w path Read with
  | Throw e => (w, Throw e)
  | Ok (w1, file) =>
      let (file', r) := read_all w1 file in
      (FileStream_destroy w1 file', r)
  end.

(** [template <Writable T> void write_file(const std::string& path, const T& content)] *)
Definition write_file {T} `{Writable T} (w : world) (path : string) (content : T)
  : world * result unit :=
  match FileStream_new w path Write with
  | Throw e => (w, Throw e)
  | Ok (w1, file) =>
      let '(w2, file', r) := write w1 file content in
      (FileStream_destroy w2 file', r)
  end.

(** [template <Writable T> void append_file(const std::string& path, const T& content)] *)
Definition append_file {T} `{Writable T} (w : world) (path : string) (content : T)
  : world * result unit :=
  match FileStream_new w path Append with
  | Throw e => (w, Throw e)
  | Ok (w1, file) =>
      let '(w2, file', r) := write w1 file content in
      (FileStream_destroy w2 file', r)
  end.

(** The loop of [read_lines]: [while (auto line = file.read_line())
    lines.push_back( *line)].  [fuel] bounds the iterations; [None] means
    the bound was reached. *)
Fixpoint read_lines_loop (fuel : nat) (w : world) (file : FileStream)
    (lines : list bytes) : option (FileStream * list bytes) :=
  match fuel with
  | O => None
  | S k =>
      match read_line w file with
      | (file', Some line) => read_lines_loop k w file' (lines ++ [line])
      | (file', None) => Some (file', lines)
      end
  end.

(** [std::vector<std::string> read_lines(const std::string& path)] *)
Definition read_lines (fuel : nat) (w : world) (path : string)
  : option (world * result (list bytes)) :=
  match FileStream_new w path Read with
  | Throw e => Some (w, Throw e)
  | Ok (w1, file) =>
      let lines := [] in
      match read_lines_loop fuel w1 file lines with
      | Some (file', lines') => Some (FileStream_destroy w1 file', Ok lines')
      | None => None
      end
  end.

(** ** [Console]

    [std::cin] is the input still to be read and a stream state.  The class
    is stateless: its static functions act on the ambient [std::cin].
    [print], [println] and the output half of [prompt] only write to
    [std::cout] and are not modelled.

    In the header some keywords of [read_line] and [read] stand in
    translation (for [throw], [return], [template], [static], [if] and
    [std::cin]); the functions are read as the C++ they stand for, and the
    message literals are kept as they are written. *)

Record istream := IStream { inp : bytes; cstate : iostate }.

(** [concept Readable]: [is >> t] is defined.  [extract] is that
    extraction, applied to a default-initialised [T]: the stream left
    behind and the value of the variable afterwards. *)
Class Readable (T : Type) := { extract : istream -> istream * T }.

(** [std::isspace] in the "C" locale. *)
Definition isspace (c : byte) : bool :=
  Byte.eqb c x20 || Byte.eqb c x09 || Byte.eqb c x0a
  || Byte.eqb c x0b || Byte.eqb c x0c || Byte.eqb c x0d.

Fixpoint skipws (l : bytes) : bytes :=
  match l with
  | c :: r => if isspace c then skipws r else l
  | [] => []
  end.

(** The characters before the first whitespace and the input from there. *)
Fixpoint token (l : bytes) : bytes * bytes :=
  match l with
  | c :: r => if isspace c then ([], l) else let (t, rest) := token r in (c :: t, rest)
  | [] => ([], [])
  end.

(** [is >> str] for [std::string]: the sentry skips leading whitespace
    ([eofbit] and [failbit] when the input ends there); then characters are
    taken up to the next whitespace ([eofbit] when the input ends first). *)
#[export] Instance Readable_string : Readable bytes := {
  extract s :=
    if good (cstate s) then
      match skipws (inp s) with
      | [] => (IStream [] (set_fail (set_eof (cstate s))), [])
      | rest =>
          let (t, rest') := token rest in
          match rest' with
          | [] => (IStream [] (set_eof (cstate s)), t)
          | _ => (IStream rest' (cstate s), t)
          end
      end
    else (IStream (inp s) (set_fail (cstate s)), [])
}.

(** [is >> c] for [char]: one character after the leading whitespace. *)
#[export] Instance Readable_char : Readable byte := {
  extract s :=
    if good (cstate s) then
      match skipws (inp s) with
      | [] => (IStream [] (set_fail (set_eof (cstate s))), NUL)
      | c :: rest' => (IStream rest' (cstate s), c)
      end
    else (IStream (inp s) (set_fail (cstate s)), NUL)
}.

(** The input after the current line: everything after the first ['\n']. *)
Fixpoint drop_line (l : bytes) : bytes :=
  match l with
  | [] => []
  | c :: r => if Byte.eqb c NL then r else drop_line r
  end.

Definition has_newline (l : bytes) : bool := existsb (fun c => Byte.eqb c NL) l.

Module Console.

(** [std::cin.ignore(std::numeric_limits<std::streamsize>::max(), '\n')]:
    after a successful sentry, characters are discarded up to and
    including the first ['\n']; [eofbit] when the input ends first. *)
Definition ignore_line (s : istream) : istream :=
  if good (cstate s) then
    IStream (drop_line (inp s))
            (if has_newline (inp s) then cstate s else set_eof (cstate s))
  else IStream (inp s) (set_fail (cstate s)).

(** [std::getline(std::cin, line)] *)
Definition getline (s : istream) (str : bytes) : istream * bytes :=
  if good (cstate s) then
    let '(ln, n, e) := getline_scan (inp s) in
    let st1 := if e then set_eof (cstate s) else cstate s in
    let st2 := if (n =? 0)%nat then set_fail st1 else st1 in
    (IStream (drop n (inp s)) st2, ln)
  else (IStream (inp s) (set_fail (cstate s)), str).

(** [static std::string read_line()] *)
Definition read_line (cin : istream) : istream * result bytes :=
  let line := [] in
  let (cin1, line') := getline cin line in
  if fail (cstate cin1)
  then (cin1, Throw (IOError_new "无法从控制台读取"))
  else (cin1, Ok line').

(** [template <Readable T> static T read()] *)
Definition read {T} `{Readable T} (cin : istream) : istream * result T :=
  let (cin1, value) := extract cin in
  if fail (cstate cin1)
  then (cin1, Throw (IOError_new "无法从控制台读取值"))
  else
    let cin2 := ignore_line cin1 in
    (cin2, Ok value).

End Console.

(** Once [eofbit] is set nothing is left to read. *)
Definition eof_wf (s : istream) : Prop :=
  eofbit (cstate s) = true -> inp s = [].

(** ** Programs over several [FileStream] objects

    Objects live at addresses; [operator=] compares addresses. *)

Record program := Program { pw : world; objs : gmap nat FileStream }.

(** The handle a [FileStream] owns, if any. *)
Definition handle_of (f : FileStream) : option nat :=
  fb_fd <$> buf (stream_ f).

(** [FileStream& operator=(FileStream&& other) noexcept], called on the
    object at [this] with the object at [other]. *)
Definition move_assign_at (P : program) (this other : nat) : program :=
  if decide (this = other) then P
  else
    match objs P !! this, objs P !! other with
    | Some ft, Some fo =>
        let '(w', t', o') := FileStream_move_assign (pw P) ft fo in
        Program w' (<[this := t']> (<[other := o']> (objs P)))
    | _, _ => P
    end.

(** One statement of a client: every way the class lets it create, use,
    move and destroy objects.  No rule copies an object. *)
Inductive step : program -> program -> Prop :=
  | step_new P a path mode w' f :
      objs P !! a = None ->
      FileStream_new (pw P) path mode = Ok (w', f) ->
      step P (Program w' (<[a := f]> (objs P)))
  | step_move P a b fa n o :
      objs P !! a = Some fa ->
      objs P !! b = None ->
      FileStream_move fa = (n, o) ->
      step P (Program (pw P) (<[b := n]> (<[a := o]> (objs P))))
  | step_assign P a b :
      is_Some (objs P !! a) ->
      is_Some (objs P !! b) ->
      step P (move_assign_at P a b)
  | step_destroy P a f :
      objs P !! a = Some f ->
      step P (Program (FileStream_destroy (pw P) f) (delete a (objs P)))
  | step_read_all P a f f' r :
      objs P !! a = Some f ->
      read_all (pw P) f = (f', r) ->
      step P (Program (pw P) (<[a := f']> (objs P)))
  | step_read_line P a f f' r :
      objs P !! a = Some f ->
      read_line (pw P) f = (f', r) ->
      step P (Program (pw P) (<[a := f']> (objs P)))
  | step_write P a f (d : bytes) w' f' r :
      objs P !! a = Some f ->
      write (pw P) f d = (w', f', r) ->
      step P (Program w' (<[a := f']> (objs P)))
  | step_write_line P a f (d : bytes) w' f' r :
      objs P !! a = Some f ->
      write_line (pw P) f d = (w', f', r) ->
      step P (Program w' (<[a := f']> (objs P)))
  | step_write_fmt P a f (d : bytes) w' f' r :
      objs P !! a = Some f ->
      write_fmt (pw P) f d = (w', f', r) ->
      step P (Program w' (<[a := f']> (objs P)))
  | step_write_line_fmt P a f (d : bytes) w' f' r :
      objs P !! a = Some f ->
      write_line_fmt (pw P) f d = (w', f', r) ->
      step P (Program w' (<[a := f']> (objs P)))
  | step_seek P a f pos :
      objs P !! a = Some f ->
      step P (Program (pw P) (<[a := seek (pw P) f pos]> (objs P)))
  | step_tell P a f f' n :
      objs P !! a = Some f ->
      tell (pw P) f = (f', n) ->
      step P (Program (pw P) (<[a := f']> (objs P))).

(** A program starts with no object and no open handle. *)
Definition initial (P : program) : Prop :=
  objs P = ∅ /\ open_fds (pw P) = ∅.

Inductive reachable : program -> Prop :=
  | reach_init P : initial P -> reachable P
  | reach_step P Q : reachable P -> step P Q -> reachable Q.

(** The object at address [a] owns the handle [h]. *)
Definition owns (P : program) (a h : nat) : Prop :=
  exists f, objs P !! a = Some f /\ handle_of f = Some h.

(** No handle has two owners. *)
Definition unique_owner (P : program) : Prop :=
  forall a b h, owns P a h -> owns P b h -> a = b.

(** Every owned handle is open, and every open handle is owned. *)
Definition owned_open (P : program) : Prop :=
  forall h, h ∈ open_fds (pw P) <-> exists a, owns P a h.

(** The ownership discipline: exclusive owners, and no handle open
    without an owner. *)
Definition ownership (P : program) : Prop :=
  unique_owner P /\ owned_open P.

(** ** Observations used in the statements *)

(** The file position of an open [FileStream]. *)
Definition position (f : FileStream) : option nat :=
  fb_pos <$> buf (stream_ f).

(** The handles a [FileStream] owns: one or none. *)
Definition handles (f : FileStream) : gset nat :=
  match handle_of f with Some h => {[h]} | None => ∅ end.

(** [starts_with ctx msg]: the message [msg] begins with the text [ctx]. *)
Fixpoint starts_with (ctx msg : string) : bool :=
  match ctx with
  | EmptyString => true
  | String a ctx' =>
      match msg with
      | EmptyString => false
      | String b msg' => Ascii.eqb a b && starts_with ctx' msg'
      end
  end.

(** [mentions msg ctx]: the text [ctx] occurs inside the message [msg]. *)
Fixpoint mentions (msg ctx : string) : bool :=
  starts_with ctx msg ||
  match msg with
  | EmptyString => false
  | String _ m => mentions m ctx
  end.

(** Specification of [read_lines], not taken from the code: the lines of a
    text are the pieces between line terminators; a last piece without
    terminator counts when it is not empty. *)
Fixpoint lines_of (l : bytes) : list bytes :=
  match l with
  | [] => []
  | c :: r =>
      if Byte.eqb c NL then [] :: lines_of r
      else match lines_of r with
           | [] => [[c]]
           | ln :: lns => (c :: ln) :: lns
           end
  end.

(** The text made of the given lines, each followed by a line terminator. *)
Definition join_lines (ls : list bytes) : bytes :=
  concat (map (fun l => l ++ [NL]) ls).

(** A client that writes the elements of [ls] in order, one [write_line]
    call each, and ignores what the calls report. *)
Fixpoint write_each_line (w : world) (f : FileStream) (ls : list bytes)
  : world * FileStream :=
  match ls with
  | [] => (w, f)
  | l :: r => let '(w1, f1, _) := write_line w f l in write_each_line w1 f1 r
  end.

(** What a successful write of [d] through [fb] leaves in the file, and
    where it leaves the position (see [filebuf_write]). *)
Definition content_written (w : world) (fb : filebuf) (d : bytes) : bytes :=
  let c := file_content w (fb_path fb) in
  if has_flag (fb_mode fb) ios.app then c ++ d else overwrite c (fb_pos fb) d.

Definition pos_written (fb : filebuf) (d : bytes) : nat :=
  (fb_pos fb + length d)%nat.

(** [FileStream]'s [template <Readable T> std::optional<T> read()]:
    [stream_ >> value] is the extraction of the [Readable] instance, run on
    the characters the file buffer can still deliver; the position advances
    by what the extraction took.  There is no guard before the extraction. *)
Definition read {T} `{Readable T} (w : world) (f : FileStream)
  : FileStream * option T :=
  let avail := match buf (stream_ f) with
               | Some fb => filebuf_avail w fb
               | None => []
               end in
  let (is1, value) := extract (IStream avail (state (stream_ f))) in
  let taken := (length avail - length (inp is1))%nat in
  let s1 := FStream match buf (stream_ f) with
                    | Some fb => Some (fb_set_pos fb (fb_pos fb + taken))
                    | None => None
                    end (cstate is1) in
  if negb (fail (cstate is1)) then (MkFileStream s1, Some value)
  else (MkFileStream s1, None).

(** The input is at its end or continues with whitespace. *)
Definition at_token_end (rest : bytes) : bool :=
  match rest with [] => true | c :: _ => isspace c end.

(** * Properties *)

(** ** Stream state *)

Lemma fail_false_inv st :
  fail st = false -> failbit st = false /\ badbit st = false.
Proof. destruct st as [e [] []]; cbv; intuition congruence. Qed.

Lemma good_clear_eof st : fail st = false -> good (clear_eof st) = true.
Proof. destruct st as [e [] []]; cbv; congruence. Qed.

Lemma fail_clear_eof st : fail (clear_eof st) = fail st.
Proof. reflexivity. Qed.

Lemma good_not_fail st : good st = true -> fail st = false.
Proof. destruct st as [[] [] []]; cbv; congruence. Qed.

Lemma clear_eof_good st : good st = true -> clear_eof st = st.
Proof. destruct st as [[] [] []]; cbv; congruence. Qed.

(** ** Opening *)

Lemma fopen_mode_flags mode :
  fopen_mode (open_flags mode) =
  Some match mode with
       | Read => C_r | Write => C_w | Append => C_a | ReadWrite => C_rplus
       end.
Proof. destruct mode; reflexivity. Qed.

(** Opening succeeds exactly when [fopen] accepts the path under the mode;
    the new object is good, at the offset [fopen] leaves, with a fresh
    handle. *)
Lemma FileStream_new_fopen w path mode :
  let m := match mode with
           | Read => C_r | Write => C_w | Append => C_a | ReadWrite => C_rplus
           end in
  FileStream_new w path mode =
  match fopen_files w path m with
  | Some fs =>
      Ok (set_open_fds (set_files w fs) ({[fresh (open_fds w)]} ∪ open_fds w),
          MkFileStream (FStream (Some (FileBuf (fresh (open_fds w)) path
                                               (open_flags mode)
                                               (fopen_pos fs path m))) goodbit))
  | None => Throw (IOError_new ("Failed to open file: " +:+ path))
  end.
Proof.
  unfold FileStream_new, open_stream, fstream_new, filebuf_open.
  rewrite fopen_mode_flags.
  destruct (fopen_files _ _ _); reflexivity.
Qed.

(** Which modes open for input and which for output. *)
Lemma FileStream_new_directions w path mode w' f :
  FileStream_new w path mode = Ok (w', f) ->
  exists fb,
    buf (stream_ f) = Some fb /\
    fb_path fb = path /\
    can_read fb = match mode with Read | ReadWrite => true | _ => false end /\
    can_write fb = match mode with Read => false | _ => true end /\
    state (stream_ f) = goodbit.
Proof.
  rewrite FileStream_new_fopen.
  destruct (fopen_files _ _ _); [| discriminate]. intros [= <- <-].
  eexists. split; [reflexivity |]. destruct mode; repeat split; reflexivity.
Qed.

(** ** Seeking and telling on an open buffer *)

Lemma seekable_true w fb p :
  0 <= p ->
  p <= max_offset w \/ p <= Z.of_nat (length (file_content w (fb_path fb))) ->
  seekable w fb p = true.
Proof.
  intros H0 Hle. unfold seekable.
  apply andb_true_intro. split; [apply Z.leb_le; exact H0 |].
  apply orb_true_iff. destruct Hle as [H | H]; [left | right]; apply Z.leb_le; exact H.
Qed.

Lemma pubseekoff_open w fb st off way :
  0 <= seek_base w fb way + off ->
  seek_base w fb way + off <= max_offset w \/
  seek_base w fb way + off <= Z.of_nat (length (file_content w (fb_path fb))) ->
  pubseekoff w (FStream (Some fb) st) off way =
  (FStream (Some (fb_set_pos fb (Z.to_nat (seek_base w fb way + off)))) st,
   seek_base w fb way + off).
Proof.
  intros Hp Hle. unfold pubseekoff. cbn [buf state].
  rewrite (seekable_true _ _ _ Hp Hle), orb_true_r. reflexivity.
Qed.

Lemma pubseekoff_tell w fb st :
  pubseekoff w (FStream (Some fb) st) 0 cur =
  (FStream (Some fb) st, Z.of_nat (fb_pos fb)).
Proof.
  unfold pubseekoff. cbn [buf state seek_base Z.eqb orb].
  rewrite Z.add_0_r, Nat2Z.id. destruct fb; reflexivity.
Qed.

Lemma seekg_off_open w fb st off way :
  fail st = false ->
  0 <= seek_base w fb way + off ->
  seek_base w fb way + off <= max_offset w \/
  seek_base w fb way + off <= Z.of_nat (length (file_content w (fb_path fb))) ->
  seekg_off w (FStream (Some fb) st) off way =
  FStream (Some (fb_set_pos fb (Z.to_nat (seek_base w fb way + off)))) (clear_eof st).
Proof.
  intros Hf Hp Hle. unfold seekg_off, isentry, setstate. cbn [buf state].
  rewrite (good_clear_eof _ Hf). cbn [state].
  rewrite fail_clear_eof, Hf.
  rewrite (pubseekoff_open _ _ _ _ _ Hp Hle).
  destruct (_ =? -1) eqn:E; [apply Z.eqb_eq in E; lia | reflexivity].
Qed.

Lemma tellg_open w fb st :
  good st = true ->
  tellg w (FStream (Some fb) st) = (FStream (Some fb) st, Z.of_nat (fb_pos fb)).
Proof.
  intros Hg. unfold tellg, isentry. cbn [buf state].
  rewrite Hg. cbn [state]. rewrite (good_not_fail _ Hg).
  apply pubseekoff_tell.
Qed.

(** ** [read_all] on a stream that can be read *)

(** A stream opened for input whose state has neither [failbit] nor
    [badbit]: [read_all] returns the whole file, clears [eofbit] and leaves
    the position at the end of the content. *)
Lemma read_all_readable w fb st :
  can_read fb = true ->
  fail st = false ->
  read_all w (MkFileStream (FStream (Some fb) st)) =
  (MkFileStream
     (FStream (Some (fb_set_pos fb (length (file_content w (fb_path fb)))))
              (clear_eof st)),
   Ok (file_content w (fb_path fb))).
Proof.
  intros Hr Hf. unfold read_all. cbn [stream_ state]. rewrite Hf.
  rewrite seekg_off_open by (cbn [seek_base]; auto; lia). cbn [seek_base].
  rewrite Z.add_0_r, Nat2Z.id.
  rewrite tellg_open by (apply good_clear_eof; exact Hf). cbn [fb_set_pos fb_pos].
  rewrite seekg_off_open by (cbn [seek_base]; auto; lia). cbn [seek_base].
  set (c := file_content w (fb_path fb)).
  change (clear_eof (clear_eof st)) with (clear_eof st).
  change (fb_set_pos (fb_set_pos fb (length c)) (Z.to_nat (0 + 0)))
    with (fb_set_pos fb 0).
  destruct (Z.of_nat (length c) <=? 0) eqn:E.
  - apply Z.leb_le in E.
    assert (length c = 0%nat) as Hc by lia.
    rewrite Hc. apply length_zero_iff_nil in Hc. rewrite Hc. reflexivity.
  - apply Z.leb_gt in E.
    unfold istream_read, isentry. cbn [state].
    rewrite (good_clear_eof _ Hf). unfold sgetn. cbn [buf state].
    unfold filebuf_avail.
    replace (can_read (fb_set_pos fb 0)) with true by (symmetry; exact Hr).
    cbn [fb_set_pos fb_pos fb_path]. fold c.
    rewrite Nat2Z.id, drop_0, firstn_all.
    rewrite Nat.ltb_irrefl, Nat.add_0_l.
    rewrite drop_ge by (rewrite length_replicate; lia).
    rewrite app_nil_r. reflexivity.
Qed.

(** ** Opening a path that does not exist *)

(** The constructor in [Write] mode: it fails exactly on the paths the
    system refuses to open for output; otherwise the file is there, empty,
    and the new object is good, at offset 0, with a fresh handle. *)
Lemma FileStream_new_Write w p :
  FileStream_new w p Write =
  if decide (p ∈ unwritable w)
  then Throw (IOError_new ("Failed to open file: " +:+ p))
  else Ok (set_open_fds (set_files w (<[p := []]> (files w)))
                        ({[fresh (open_fds w)]} ∪ open_fds w),
           MkFileStream (FStream (Some (FileBuf (fresh (open_fds w)) p
                                                (open_flags Write) 0)) goodbit)).
Proof.
  rewrite FileStream_new_fopen. cbn [fopen_files].
  destruct (decide (p ∈ unwritable w)); reflexivity.
Qed.

(** The constructor in [Read] mode. *)
Lemma FileStream_new_Read w p :
  FileStream_new w p Read =
  match files w !! p with
  | Some _ =>
      Ok (set_open_fds w ({[fresh (open_fds w)]} ∪ open_fds w),
          MkFileStream (FStream (Some (FileBuf (fresh (open_fds w)) p
                                               (open_flags Read) 0)) goodbit))
  | None => Throw (IOError_new ("Failed to open file: " +:+ p))
  end.
Proof.
  rewrite FileStream_new_fopen. cbn [fopen_files].
  destruct (files w !! p); [| reflexivity].
  destruct w; reflexivity.
Qed.

(** C4, as stated, fails: a nonexistent path need not be one the system
    lets a program create.  The empty name is refused by every system, and
    a name in a missing directory is refused as well: there the [Write]
    mode constructor throws the error of [open_stream]. *)
Lemma open_write_nonexistent_throws :
  files (World ∅ ∅) !! EmptyString = None /\
  FileStream_new (World ∅ ∅) EmptyString Write
    = Throw (IOError_new "Failed to open file: ") /\
  files (MkWorld ∅ ∅ {["nodir/a.txt"%string]} (2 ^ 63 - 1)) !! "nodir/a.txt"%string = None /\
  FileStream_new (MkWorld ∅ ∅ {["nodir/a.txt"%string]} (2 ^ 63 - 1)) "nodir/a.txt" Write
    = Throw (IOError_new "Failed to open file: nodir/a.txt").
Proof. repeat split; vm_compute; reflexivity. Qed.

(** C4, amended. For every path that names no file, constructing a
    [FileStream] in [Read] mode throws the [IOError] of [open_stream];
    constructing it in [Write] mode succeeds when the system lets the path
    be opened for output (the object is open and the file now exists,
    empty) and throws the same [IOError] when the system refuses the
    path. *)
Theorem open_nonexistent_path (w : world) (p : string) :
  files w !! p = None ->
  FileStream_new w p Read = Throw (IOError_new ("Failed to open file: " +:+ p)) /\
  (p ∉ unwritable w ->
   exists w' f,
     FileStream_new w p Write = Ok (w', f) /\
     is_open f = true /\
     files w' !! p = Some []) /\
  (p ∈ unwritable w ->
   FileStream_new w p Write = Throw (IOError_new ("Failed to open file: " +:+ p))).
Proof.
  intros Hnone. rewrite FileStream_new_Read, FileStream_new_Write, Hnone.
  split; [reflexivity |]. split; intros Hp.
  - rewrite decide_False by exact Hp.
    eexists _, _. split; [reflexivity |]. split; [reflexivity |].
    cbn [files set_open_fds set_files]. apply lookup_insert_eq.
  - rewrite decide_True by exact Hp. reflexivity.
Qed.

Lemma open_nonexistent_path_witness :
  files (World ∅ ∅) !! "a.txt"%string = None /\
  ("a.txt"%string ∉ unwritable (World ∅ ∅)) /\
  FileStream_new (World ∅ ∅) "a.txt" Read
    = Throw (IOError_new ("Failed to open file: " +:+ "a.txt")) /\
  exists w' f,
    FileStream_new (World ∅ ∅) "a.txt" Write = Ok (w', f) /\
    is_open f = true /\
    files w' !! "a.txt"%string = Some [].
Proof.
  assert ("a.txt"%string ∉ unwritable (World ∅ ∅)) as Hp
    by (cbn; intros Hin; apply elem_of_singleton_1 in Hin; discriminate Hin).
  assert (files (World ∅ ∅) !! "a.txt"%string = None) as Hn by reflexivity.
  split; [exact Hn |]. split; [exact Hp |].
  destruct (open_nonexistent_path (World ∅ ∅) "a.txt" Hn) as (Hr & Hw & _).
  split; [exact Hr | exact (Hw Hp)].
Defined.

(** ** Writing a file and reading it back *)

Lemma release_fresh (S : gset nat) : ({[fresh S]} ∪ S) ∖ {[fresh S]} = S.
Proof.
  pose proof (is_fresh S) as Hf. apply set_eq. intros x.
  rewrite elem_of_difference, elem_of_union, elem_of_singleton.
  split; [tauto |]. intros Hx. split; [tauto |]. intros ->. auto.
Qed.

Lemma overwrite_nil (d : bytes) : overwrite [] 0 d = d.
Proof. unfold overwrite. cbn. rewrite drop_nil. apply app_nil_r. Qed.

(** Destroying the object the constructor has just returned gives the
    handle back. *)
Lemma destroy_fresh w fs fd_path flags pos st :
  FileStream_destroy
    (set_open_fds (set_files w fs) ({[fresh (open_fds w)]} ∪ open_fds w))
    (MkFileStream (FStream (Some (FileBuf (fresh (open_fds w)) fd_path flags pos)) st))
  = set_files w fs.
Proof.
  unfold FileStream_destroy, fstream_close, filebuf_close, set_open_fds, set_files.
  cbn. rewrite release_fresh. reflexivity.
Qed.

(** What [write_file] leaves behind when the system lets the path be opened
    for output: the file holds exactly the rendered content and the handle
    has been given back. *)
Lemma write_file_spec {T} `{Writable T} (w : world) (p : string) (content : T) :
  p ∉ unwritable w ->
  write_file w p content = (set_files w (<[p := render content]> (files w)), Ok tt).
Proof.
  intros Hp. unfold write_file. rewrite FileStream_new_Write, decide_False by exact Hp.
  unfold write. cbn [stream_ state].
  change (fail goodbit) with false. cbv iota.
  unfold ostream_insert, osentry. cbn [state].
  change (good goodbit) with true. cbv iota.
  destruct (render content) as [|c d] eqn:E.
  - rewrite destroy_fresh. reflexivity.
  - cbn [buf]. unfold filebuf_write, can_write. cbn [fb_mode fb_path fb_pos].
    change (has_flag (open_flags Write) ios.out) with true.
    change (has_flag (open_flags Write) ios.app) with false.
    cbv iota. cbn [orb].
    unfold file_content. cbn [files set_open_fds set_files]. rewrite lookup_insert_eq.
    cbn [default]. rewrite overwrite_nil, insert_insert_eq.
    unfold FileStream_destroy, fstream_close, filebuf_close, set_open_fds, set_files.
    cbn. rewrite release_fresh. reflexivity.
Qed.

(** [write_file] on a path the system refuses: the error of the open, and
    nothing has changed. *)
Lemma write_file_refused {T} `{Writable T} (w : world) (p : string) (content : T) :
  p ∈ unwritable w ->
  write_file w p content = (w, Throw (IOError_new ("Failed to open file: " +:+ p))).
Proof.
  intros Hp. unfold write_file.
  rewrite FileStream_new_Write, decide_True by exact Hp. reflexivity.
Qed.

(** [read_file] on an existing file: the whole content, and the world is
    as before (the handle has been given back). *)
Lemma read_file_spec (w : world) (p : string) (c : bytes) :
  files w !! p = Some c ->
  read_file w p = (w, Ok c).
Proof.
  intros Hc. unfold read_file. rewrite FileStream_new_Read, Hc.
  rewrite read_all_readable by reflexivity.
  cbn [fb_path]. unfold file_content. cbn [files set_open_fds]. rewrite Hc. cbn [default].
  unfold FileStream_destroy, fstream_close, filebuf_close, set_open_fds. cbn.
  rewrite release_fresh. destruct w; reflexivity.
Qed.

(** C1, as stated, fails: not every path can be written.  On the empty
    name, and on a name in a missing directory, [write_file] throws the
    error of the failed open, no file is created and [read_file] throws as
    well instead of returning the content. *)
Lemma write_file_refused_path_throws :
  write_file (World ∅ ∅) EmptyString [x61]
    = (World ∅ ∅, Throw (IOError_new "Failed to open file: ")) /\
  read_file (World ∅ ∅) EmptyString
    = (World ∅ ∅, Throw (IOError_new "Failed to open file: ")) /\
  write_file (MkWorld ∅ ∅ {["nodir/a.txt"%string]} (2 ^ 63 - 1)) "nodir/a.txt" [x61]
    = (MkWorld ∅ ∅ {["nodir/a.txt"%string]} (2 ^ 63 - 1),
       Throw (IOError_new "Failed to open file: nodir/a.txt")) /\
  read_file (MkWorld ∅ ∅ {["nodir/a.txt"%string]} (2 ^ 63 - 1)) "nodir/a.txt"
    = (MkWorld ∅ ∅ {["nodir/a.txt"%string]} (2 ^ 63 - 1),
       Throw (IOError_new "Failed to open file: nodir/a.txt")).
Proof. repeat split; vm_compute; reflexivity. Qed.

(** C1, amended. For every path on which the [Write] mode open succeeds
    and every byte sequence, [write_file] returns normally and a following
    [read_file] of the same path returns exactly that sequence.  The
    sequence is arbitrary: empty, or with ['\n'] and ['\0'] bytes inside.
    When the open fails, [write_file] throws the [IOError] of the open and
    changes nothing. *)
Theorem write_file_read_file_roundtrip (w : world) (p : string) (content : bytes) :
  ((exists w' f, FileStream_new w p Write = Ok (w', f)) ->
   exists w1 w2,
     write_file w p content = (w1, Ok tt) /\
     read_file w1 p = (w2, Ok content)) /\
  (forall e, FileStream_new w p Write = Throw e ->
             write_file w p content = (w, Throw e)).
Proof.
  split.
  - intros (w' & f & Hopen). rewrite FileStream_new_Write in Hopen.
    destruct (decide (p ∈ unwritable w)) as [| Hp]; [discriminate Hopen |].
    rewrite (write_file_spec w p content Hp).
    eexists _, _. split; [reflexivity |].
    apply read_file_spec. cbn [files set_files]. apply lookup_insert_eq.
  - intros e Hopen. unfold write_file. rewrite Hopen. reflexivity.
Qed.

Lemma write_file_read_file_roundtrip_witness :
  (exists w' f, FileStream_new (World {["f" := [x7a; x7a; x7a]]} ∅) "f" Write = Ok (w', f)) /\
  exists w1 w2,
    write_file (World {["f" := [x7a; x7a; x7a]]} ∅) "f" [x61; NL; NUL] = (w1, Ok tt) /\
    read_file w1 "f" = (w2, Ok [x61; NL; NUL]).
Proof.
  assert (exists w' f, FileStream_new (World {["f" := [x7a; x7a; x7a]]} ∅) "f" Write
                       = Ok (w', f)) as Hopen
    by (eexists _, _; vm_compute; reflexivity).
  split; [exact Hopen |].
  exact (proj1 (write_file_read_file_roundtrip _ "f" [x61; NL; NUL]) Hopen).
Defined.

(** The round trip on the empty sequence and on one with a line terminator
    and a null byte inside. *)
Example roundtrip_empty :
  exists w1 w2,
    write_file (World ∅ ∅) "f" ([] : bytes) = (w1, Ok tt) /\
    read_file w1 "f" = (w2, Ok []).
Proof. eexists _, _. split; vm_compute; reflexivity. Qed.

Example roundtrip_nl_nul :
  exists w1 w2,
    write_file (World ∅ ∅) "f" [x61; NL; NUL; x62] = (w1, Ok tt) /\
    read_file w1 "f" = (w2, Ok [x61; NL; NUL; x62]).
Proof. eexists _, _. split; vm_compute; reflexivity. Qed.

(** ** [read_all] on streams that cannot be read *)

(** A stream that is open but not for input, in a state without [failbit]
    and [badbit]: [read_all] does not throw.  It returns as many null bytes
    as the file has bytes and leaves the position at the start. *)
Lemma read_all_write_only w fb st :
  can_read fb = false ->
  fail st = false ->
  read_all w (MkFileStream (FStream (Some fb) st)) =
  (MkFileStream
     (FStream (Some (fb_set_pos fb 0))
        (match file_content w (fb_path fb) with
         | [] => clear_eof st
         | _ => set_fail (set_eof (clear_eof st))
         end)),
   Ok (replicate (length (file_content w (fb_path fb))) NUL)).
Proof.
  intros Hr Hf. unfold read_all. cbn [stream_ state]. rewrite Hf.
  rewrite seekg_off_open by (cbn [seek_base]; auto; lia). cbn [seek_base].
  rewrite Z.add_0_r, Nat2Z.id.
  rewrite tellg_open by (apply good_clear_eof; exact Hf). cbn [fb_set_pos fb_pos].
  rewrite seekg_off_open by (cbn [seek_base]; auto; lia). cbn [seek_base].
  set (c := file_content w (fb_path fb)).
  change (clear_eof (clear_eof st)) with (clear_eof st).
  change (fb_set_pos (fb_set_pos fb (length c)) (Z.to_nat (0 + 0)))
    with (fb_set_pos fb 0).
  destruct c as [|x c'] eqn:Ec; [reflexivity |].
  change (Z.of_nat (length (x :: c')) <=? 0) with false. cbv iota.
  unfold istream_read, isentry. cbn [state].
  rewrite (good_clear_eof _ Hf). unfold sgetn. cbn [buf state].
  unfold filebuf_avail.
  replace (can_read (fb_set_pos fb 0)) with false by (symmetry; exact Hr).
  rewrite take_nil. cbn [length]. rewrite Nat2Z.id. cbn [Nat.ltb Nat.leb].
  rewrite drop_0, Nat.add_0_r. reflexivity.
Qed.

(** A closed stream whose state has neither [failbit] nor [badbit] (what a
    move leaves behind): [read_all] does not throw either.  The seek fails,
    the size is [-1] and the result is the empty string. *)
Lemma read_all_closed w st :
  fail st = false ->
  read_all w (MkFileStream (FStream None st)) =
  (MkFileStream (FStream None (set_fail (clear_eof st))), Ok []).
Proof.
  intros Hf. destruct (fail_false_inv _ Hf) as [Hfb Hbb].
  destruct st as [e fb bb]. cbn in Hfb, Hbb. subst fb bb. reflexivity.
Qed.

(** ** C3: what [read_all] does *)

(** C3, as stated, fails: a [FileStream] can be open and still be refused
    by the guard of [read_all].  Reading the one line of the file "a" and
    polling once more leaves the open stream with [failbit] set, and
    [read_all] then throws instead of returning the content. *)
Lemma read_all_open_stream_throws :
  exists w1 f0 f1 f2,
    FileStream_new (World {["f" := [x61]]} ∅) "f" Read = Ok (w1, f0) /\
    read_line w1 f0 = (f1, Some [x61]) /\
    read_line w1 f1 = (f2, None) /\
    is_open f2 = true /\
    file_content w1 "f" = [x61] /\
    read_all w1 f2 = (f2, Throw (IOError_new "File not open for reading")).
Proof. eexists _, _, _, _. repeat split; vm_compute; reflexivity. Qed.

(** C3, amended. For every [FileStream] that is open for input ([Read] or
    [ReadWrite] mode): when its state has neither [failbit] nor [badbit],
    [read_all] finds the size of the file by seeking to the end (the size it
    computes is the length of the content), returns the empty string for a
    size of zero or less and otherwise exactly that many bytes, the whole
    content, and leaves the position at the end of the content; when
    [failbit] or [badbit] is set it throws [IOError]. *)
Theorem read_all_open_for_input (w : world) (f : FileStream) (fb : filebuf) :
  buf (stream_ f) = Some fb ->
  can_read fb = true ->
  let c := file_content w (fb_path fb) in
  let size := snd (tellg w (seekg_off w (stream_ f) 0 end_)) in
  (fail (state (stream_ f)) = false ->
   size = Z.of_nat (length c) /\
   exists f' content,
     read_all w f = (f', Ok content) /\
     (size <= 0 -> content = []) /\
     Z.of_nat (length content) = size /\
     content = c /\
     position f' = Some (length c)) /\
  (fail (state (stream_ f)) = true ->
   read_all w f = (f, Throw (IOError_new "File not open for reading"))).
Proof.
  intros Hb Hr c size. destruct f as [[b st]]. cbn [stream_ buf state] in *. subst b.
  split; intros Hf.
  - assert (size = Z.of_nat (length c)) as Hsize.
    { unfold size. rewrite seekg_off_open by (cbn [seek_base]; auto; lia).
      rewrite tellg_open by (apply good_clear_eof; exact Hf).
      cbn [snd seek_base fb_set_pos fb_pos]. fold c. rewrite Z.add_0_r, Nat2Z.id.
      reflexivity. }
    split; [exact Hsize |].
    eexists _, c. split; [apply read_all_readable; assumption |].
    split; [| split; [| split]]; try reflexivity.
    + intros Hz. apply length_zero_iff_nil. lia.
    + symmetry. exact Hsize.
  - unfold read_all. cbn [stream_ state]. rewrite Hf. reflexivity.
Qed.

Lemma read_all_open_for_input_witness :
  let w := World {["f" := [x61; NL; x62]]} ∅ in
  let fb := FileBuf 0 "f" (open_flags Read) 1 in
  let f := MkFileStream (FStream (Some fb) goodbit) in
  buf (stream_ f) = Some fb /\
  can_read fb = true /\
  fail (state (stream_ f)) = false /\
  exists f', read_all w f = (f', Ok [x61; NL; x62]) /\ position f' = Some 3%nat.
Proof.
  intros w fb f.
  split; [reflexivity |]. split; [reflexivity |]. split; [reflexivity |].
  destruct (read_all_open_for_input w f fb eq_refl eq_refl) as [Hok _].
  destruct (Hok eq_refl) as [_ [f' [content [Hr [_ [_ [Hc Hp]]]]]]].
  exists f'. split; [rewrite Hr, Hc; reflexivity | exact Hp].
Defined.

(** ** C6: [read_all] on a stream that is not open for reading *)

(** C6 fails on the code.  The guard of [read_all] tests the state bits
    ([!stream_]), not whether the file is open for input.  A [FileStream]
    just opened in [Write] mode is good, so [read_all] returns the empty
    string; the object a move leaves behind keeps good state bits, so
    [read_all] returns the empty string on it as well.  This holds on
    every path the system lets be opened for output. *)
Theorem read_all_write_mode_does_not_throw (w : world) (p : string) :
  p ∉ unwritable w ->
  exists w1 f f1 f2,
    FileStream_new w p Write = Ok (w1, f) /\
    read_all w1 f = (f1, Ok []) /\
    is_open (snd (FileStream_move f)) = false /\
    read_all w1 (snd (FileStream_move f)) = (f2, Ok []).
Proof.
  intros Hp. rewrite FileStream_new_Write, decide_False by exact Hp.
  eexists _, _, _, _. split; [reflexivity |].
  split; [| split; [reflexivity |]].
  - rewrite read_all_write_only by reflexivity.
    cbn [fb_path]. unfold file_content. cbn [files set_open_fds set_files].
    rewrite lookup_insert_eq. reflexivity.
  - cbn [FileStream_move fstream_move stream_ snd buf state].
    rewrite read_all_closed by reflexivity. reflexivity.
Qed.

Lemma read_all_write_mode_does_not_throw_witness :
  ("out.txt"%string ∉ unwritable (World {["out.txt" := [x61]]} ∅)) /\
  exists w1 f f1 f2,
    FileStream_new (World {["out.txt" := [x61]]} ∅) "out.txt" Write = Ok (w1, f) /\
    read_all w1 f = (f1, Ok []) /\
    is_open (snd (FileStream_move f)) = false /\
    read_all w1 (snd (FileStream_move f)) = (f2, Ok []).
Proof.
  assert ("out.txt"%string ∉ unwritable (World {["out.txt" := [x61]]} ∅)) as Hp
    by (cbn; intros Hin; apply elem_of_singleton_1 in Hin; discriminate Hin).
  split; [exact Hp |].
  exact (read_all_write_mode_does_not_throw _ "out.txt" Hp).
Defined.

(** The same on a file with content, in [Append] mode: three null bytes
    come back for the three bytes of the file. *)
Example read_all_append_mode_nulls :
  exists w1 f f1,
    FileStream_new (World {["f" := [x61; x62; x63]]} ∅) "f" Append = Ok (w1, f) /\
    read_all w1 f = (f1, Ok [NUL; NUL; NUL]) /\
    position f1 = Some 0%nat.
Proof. eexists _, _, _. repeat split; vm_compute; reflexivity. Qed.

(** ** C9: [tell] when the position cannot be reported *)

Lemma to_size_t_minus_one : to_size_t (-1) = SIZE_MAX.
Proof. reflexivity. Qed.

(** C9. On a [FileStream] that is closed (moved-from) or whose state is not
    good, [tellg] yields [-1] and the conversion to [size_t] makes [tell]
    return the largest [size_t] value; nothing is thrown. *)
Theorem tell_unreportable_is_SIZE_MAX (w : world) (f : FileStream) :
  is_open f = false \/ good (state (stream_ f)) = false ->
  snd (tell w f) = SIZE_MAX.
Proof.
  intros Hcase. destruct f as [[b st]]. unfold tell, tellg, isentry.
  cbn [stream_ state buf] in *.
  destruct (good st) eqn:Hg; unfold setstate; cbn [state buf].
  - destruct Hcase as [Hclosed | ?]; [| discriminate].
    rewrite (good_not_fail _ Hg).
    destruct b; [discriminate Hclosed |]. reflexivity.
  - replace (fail (set_fail st)) with true
      by (destruct st as [? ? []]; reflexivity).
    reflexivity.
Qed.

Lemma tell_unreportable_is_SIZE_MAX_witness :
  let moved := snd (FileStream_move
                      (MkFileStream (FStream (Some (FileBuf 0 "f" (open_flags Read) 2))
                                             goodbit))) in
  (is_open moved = false \/ good (state (stream_ moved)) = false) /\
  snd (tell (World {["f" := [x61; x62]]} {[0%nat]}) moved) = 18446744073709551615.
Proof.
  intros moved. split; [left; reflexivity |].
  apply (tell_unreportable_is_SIZE_MAX _ moved). left. reflexivity.
Defined.

(** ** [read_line] and [read_lines] *)

Lemma getline_scan_lines (l : bytes) :
  l <> [] ->
  let '(ln, n, e) := getline_scan l in
  lines_of l = ln :: lines_of (drop n l) /\
  (1 <= n <= length l)%nat /\
  (e = true -> drop n l = []).
Proof.
  induction l as [|c r IH]; [congruence |]. intros _.
  cbn [getline_scan lines_of]. destruct (Byte.eqb c NL) eqn:Ec.
  - cbn [drop length]. rewrite drop_0. split; [reflexivity |].
    split; [lia | discriminate].
  - destruct r as [|c' r'].
    + cbn. split; [reflexivity |]. split; [lia | reflexivity].
    + specialize (IH ltac:(discriminate)).
      destruct (getline_scan (c' :: r')) as [[ln n] e].
      destruct IH as [Hl [Hn He]]. rewrite Hl. cbn [drop length] in *.
      split; [reflexivity |]. split; [lia | exact He].
Qed.

(** [read_line] on a good stream that is open for input. *)
Lemma read_line_good w fb st :
  can_read fb = true ->
  good st = true ->
  read_line w (MkFileStream (FStream (Some fb) st)) =
  let '(ln, n, e) := getline_scan (drop (fb_pos fb) (file_content w (fb_path fb))) in
  (MkFileStream
     (FStream (Some (fb_set_pos fb (fb_pos fb + n)))
        ((if (n =? 0)%nat then set_fail else id) ((if e then set_eof else id) st))),
   if (n =? 0)%nat then None else Some ln).
Proof.
  intros Hr Hg. unfold read_line, getline, isentry. cbn [stream_ state buf].
  rewrite (good_not_fail _ Hg), Hg. cbn [buf state].
  unfold filebuf_avail. rewrite Hr.
  destruct (getline_scan _) as [[ln n] e].
  destruct st as [[] [] []]; try discriminate Hg.
  destruct e, (n =? 0)%nat; reflexivity.
Qed.

(** [read_line] on a stream that is not good: no line, same buffer. *)
Lemma read_line_not_good w b st :
  good st = false ->
  exists st', read_line w (MkFileStream (FStream b st))
              = (MkFileStream (FStream b st'), None).
Proof.
  intros Hg. unfold read_line, getline, isentry. cbn [stream_ state].
  destruct (fail st) eqn:Hf; [eexists; reflexivity |].
  rewrite Hg. unfold setstate. cbn [state buf].
  replace (fail (set_fail st)) with true by (destruct st as [? ? []]; reflexivity).
  eexists; reflexivity.
Qed.

(** The loop of [read_lines] from any position of a good stream open for
    input: with fuel for two more polls than bytes left, it ends, having
    appended the lines of the rest of the file. *)
Lemma read_lines_loop_spec w fb :
  can_read fb = true ->
  forall k pos st lines fuel,
    good st = true ->
    (length (drop pos (file_content w (fb_path fb))) <= k)%nat ->
    (k + 2 <= fuel)%nat ->
    exists pos' st',
      read_lines_loop fuel w
        (MkFileStream (FStream (Some (fb_set_pos fb pos)) st)) lines =
      Some (MkFileStream (FStream (Some (fb_set_pos fb pos')) st'),
            lines ++ lines_of (drop pos (file_content w (fb_path fb)))).
Proof.
  intros Hr. set (c := file_content w (fb_path fb)).
  induction k as [|k IH]; intros pos st lines fuel Hg Hlen Hfuel.
  all: destruct fuel as [|fuel]; [lia |]; cbn [read_lines_loop].
  all: rewrite read_line_good by assumption.
  all: cbn [fb_set_pos fb_pos fb_path]; fold c.
  all: destruct (drop pos c) as [|x avail] eqn:Ea.
  all: try (cbn [getline_scan Nat.eqb]; rewrite app_nil_r; eexists _, _; reflexivity).
  - cbn [length] in Hlen. lia.
  - pose proof (getline_scan_lines (x :: avail) ltac:(discriminate)) as Hs.
    destruct (getline_scan (x :: avail)) as [[ln n] e].
    destruct Hs as [Hl [Hn He]]. rewrite Hl.
    assert (drop n (x :: avail) = drop (pos + n) c) as Hd
      by (rewrite <- Ea; apply drop_drop).
    destruct (Nat.eqb_spec n 0) as [-> | _]; [lia |].
    change (fb_set_pos (fb_set_pos fb pos) (pos + n)) with (fb_set_pos fb (pos + n)).
    destruct e; cbn [id].
    + rewrite (He eq_refl). cbn [lines_of].
      destruct fuel as [|fuel]; [lia |]. cbn [read_lines_loop].
      destruct (read_line_not_good w (Some (fb_set_pos fb (pos + n))) (set_eof st))
        as [st' ->]; [reflexivity |].
      eexists _, _. reflexivity.
    + destruct (IH (pos + n)%nat st (lines ++ [ln]) fuel Hg) as [pos' [st' ->]].
      * fold c. rewrite <- Hd, length_drop. cbn [length] in *. lia.
      * lia.
      * fold c. rewrite <- Hd, <- app_assoc. eexists _, _. reflexivity.
Qed.

(** [read_lines] on an existing file, with fuel for two more polls than the
    file has bytes: it returns the lines of the file, in file order, and
    the world is as before. *)
Lemma read_lines_spec (w : world) (p : string) (c : bytes) (fuel : nat) :
  files w !! p = Some c ->
  (length c + 2 <= fuel)%nat ->
  read_lines fuel w p = Some (w, Ok (lines_of c)).
Proof.
  intros Hc Hfuel. unfold read_lines. rewrite FileStream_new_Read, Hc.
  set (fb := FileBuf (fresh (open_fds w)) p (open_flags Read) 0).
  set (w1 := set_open_fds w ({[fresh (open_fds w)]} ∪ open_fds w)).
  assert (file_content w1 (fb_path fb) = c) as Hfc
    by (unfold file_content; cbn [w1 fb files fb_path set_open_fds]; rewrite Hc;
        reflexivity).
  destruct (read_lines_loop_spec w1 fb eq_refl (length c) 0%nat goodbit [] fuel)
    as [pos' [st' Hloop]]; [reflexivity | rewrite Hfc, drop_0; lia | lia |].
  change (fb_set_pos fb 0) with fb in Hloop. rewrite Hloop, Hfc, drop_0.
  unfold FileStream_destroy, fstream_close, filebuf_close, w1, set_open_fds. cbn.
  rewrite release_fresh. destruct w; reflexivity.
Qed.

(** C5. For every path [p], in any world where [p] holds the given
    content, [read_lines] (with fuel for six polls or more) returns: no line
    for the empty file; ["x"; "y"] for "x\ny\n"; and ["x"; "y"] again for
    "x\ny", whose last line has no terminator.  The result is a list, in
    file order. *)
Theorem read_lines_examples (w : world) (p : string) (fuel : nat) :
  (6 <= fuel)%nat ->
  let holding c := set_files w (<[p := c]> (files w)) in
  read_lines fuel (holding []) p = Some (holding [], Ok []) /\
  read_lines fuel (holding [x78; NL; x79; NL]) p
    = Some (holding [x78; NL; x79; NL], Ok [[x78]; [x79]]) /\
  read_lines fuel (holding [x78; NL; x79]) p
    = Some (holding [x78; NL; x79], Ok [[x78]; [x79]]).
Proof.
  intros Hfuel holding.
  assert (forall c, (length c + 2 <= fuel)%nat ->
            read_lines fuel (holding c) p = Some (holding c, Ok (lines_of c))) as Hc.
  { intros c Hlen. apply read_lines_spec; [apply lookup_insert_eq | exact Hlen]. }
  split; [| split]; rewrite Hc by (cbn [length]; lia); reflexivity.
Qed.

Lemma read_lines_examples_witness :
  (6 <= 6)%nat /\
  read_lines 6 (World {["f" := []]} ∅) "f" = Some (World {["f" := []]} ∅, Ok []) /\
  read_lines 6 (World {["f" := [x78; NL; x79; NL]]} ∅) "f"
    = Some (World {["f" := [x78; NL; x79; NL]]} ∅, Ok [[x78]; [x79]]) /\
  read_lines 6 (World {["f" := [x78; NL; x79]]} ∅) "f"
    = Some (World {["f" := [x78; NL; x79]]} ∅, Ok [[x78]; [x79]]).
Proof.
  split; [lia |].
  exact (read_lines_examples (World ∅ ∅) "f" 6 (le_n 6)).
Defined.

(** ** C7: what the messages say *)

Lemma starts_with_append (s t : string) : starts_with s (s +:+ t) = true.
Proof.
  induction s as [|a s IH]; [reflexivity |]. simpl.
  rewrite Ascii.eqb_refl. exact IH.
Qed.

Lemma mentions_unfold (msg ctx : string) :
  mentions msg ctx =
  starts_with ctx msg ||
  match msg with EmptyString => false | String _ m => mentions m ctx end.
Proof. destruct msg; reflexivity. Qed.

Lemma mentions_append (pre ctx post : string) :
  mentions (pre +:+ ctx +:+ post) ctx = true.
Proof.
  induction pre as [|a pre IH].
  - change ("" +:+ ctx +:+ post) with (ctx +:+ post).
    rewrite mentions_unfold, starts_with_append. reflexivity.
  - change (String a pre +:+ ctx +:+ post) with (String a (pre +:+ ctx +:+ post)).
    rewrite mentions_unfold, IH. apply orb_true_r.
Qed.

Lemma append_empty_right (s : string) : s +:+ "" = s.
Proof.
  induction s as [|a s IH]; [reflexivity |].
  change (String a s +:+ "") with (String a (s +:+ "")). rewrite IH. reflexivity.
Qed.

(** C7, as stated, fails: the errors of [read_all] and [write] carry a
    fixed text.  On a stream over "data.txt" that a failed poll left with
    [failbit], both throw, and neither message mentions the path. *)
Lemma read_write_errors_omit_path :
  exists w1 f0 f1 e_read e_write,
    FileStream_new (World {["data.txt" := []]} ∅) "data.txt" ReadWrite = Ok (w1, f0) /\
    read_line w1 f0 = (f1, None) /\
    read_all w1 f1 = (f1, Throw e_read) /\
    write w1 f1 [x61] = (w1, f1, Throw e_write) /\
    mentions (what e_read) "data.txt" = false /\
    mentions (what e_write) "data.txt" = false.
Proof. eexists _, _, _, _, _. repeat split; vm_compute; reflexivity. Qed.

(** C7, amended. The error of a failed open names the operation and the
    path: its message is "IOError: Failed to open file: " followed by the
    path.  The errors of [read_all] and of [write], [write_line],
    [write_fmt] and [write_line_fmt] name the operation only: their
    messages are the fixed texts "IOError: File not open for reading" and
    "IOError: File not open for writing". *)
Theorem IOError_messages :
  (forall w path mode e,
     FileStream_new w path mode = Throw e ->
     what e = "IOError: Failed to open file: " +:+ path /\
     mentions (what e) "open file" = true /\
     mentions (what e) path = true) /\
  (forall w f f' e,
     read_all w f = (f', Throw e) ->
     what e = "IOError: File not open for reading"%string /\
     mentions (what e) "reading" = true) /\
  (forall T (W : Writable T) w f (value : T) w' f' e,
     write w f value = (w', f', Throw e) \/
     write_line w f value = (w', f', Throw e) ->
     what e = "IOError: File not open for writing"%string /\
     mentions (what e) "writing" = true) /\
  (forall w f formatted w' f' e,
     write_fmt w f formatted = (w', f', Throw e) \/
     write_line_fmt w f formatted = (w', f', Throw e) ->
     what e = "IOError: File not open for writing"%string /\
     mentions (what e) "writing" = true).
Proof.
  assert (forall T (W : Writable T) w f (value : T) w' f' e,
            write w f value = (w', f', Throw e) ->
            what e = "IOError: File not open for writing"%string /\
            mentions (what e) "writing" = true) as Hwrite.
  { intros T W w f value w' f' e. unfold write.
    destruct (fail _).
    - intros [= _ _ <-]. split; reflexivity.
    - destruct (ostream_insert _ _ _). discriminate. }
  assert (forall T (W : Writable T) w f (value : T) w' f' e,
            write_line w f value = (w', f', Throw e) ->
            write w f value = (w', f', Throw e)) as Hline.
  { intros T W w f value w' f' e. unfold write_line.
    destruct (write w f value) as [[w1 f1] [u|e1]]; [| exact (fun H => H)].
    destruct (ostream_insert _ _ _). discriminate. }
  split; [| split; [| split]].
  - intros w path mode e. rewrite FileStream_new_fopen.
    destruct (fopen_files _ _ _); [discriminate |]. intros [= <-].
    split; [reflexivity |]. split.
    + exact (mentions_append "IOError: Failed to " "open file" (": " +:+ path)).
    + cbn [what IOError_new]. rewrite <- (append_empty_right path) at 1.
      exact (mentions_append "IOError: Failed to open file: " path "").
  - intros w f f' e. unfold read_all.
    destruct (fail _).
    + intros [= _ <-]. split; reflexivity.
    + destruct (tellg _ _) as [s2 size]. destruct (_ <=? _); [discriminate |].
      destruct (istream_read _ _ _ _). discriminate.
  - intros T W w f value w' f' e [Hw | Hw]; eauto.
  - intros w f formatted w' f' e [Hw | Hw].
    + exact (Hwrite bytes Writable_string w f formatted w' f' e Hw).
    + exact (Hwrite bytes Writable_string w f formatted w' f' e
               (Hline bytes Writable_string w f formatted w' f' e Hw)).
Qed.

Lemma IOError_messages_witness :
  FileStream_new (World ∅ ∅) "data.txt" Read
    = Throw (IOError_new "Failed to open file: data.txt") /\
  what (IOError_new "Failed to open file: data.txt")
    = "IOError: Failed to open file: data.txt"%string /\
  mentions (what (IOError_new "Failed to open file: data.txt")) "data.txt" = true.
Proof.
  assert (FileStream_new (World ∅ ∅) "data.txt" Read
            = Throw (IOError_new "Failed to open file: data.txt")) as Hthrow
    by reflexivity.
  split; [exact Hthrow |].
  destruct IOError_messages as [Hopen _].
  destruct (Hopen _ _ _ _ Hthrow) as [Hw [_ Hp]].
  split; [exact Hw | exact Hp].
Defined.

(** ** C8: [Console::read] *)

Lemma good_eofbit st : good st = true -> eofbit st = false.
Proof. destruct st as [[] [] []]; cbv; congruence. Qed.

(** [drop_line] removes the rest of the line and its terminator. *)
Lemma drop_line_app (l1 l2 : bytes) :
  has_newline l1 = false -> drop_line (l1 ++ NL :: l2) = l2.
Proof.
  induction l1 as [|c l1 IH]; [reflexivity |].
  cbn [has_newline existsb app drop_line].
  destruct (Byte.eqb c NL); [discriminate |]. exact IH.
Qed.

(** [ignore] on a stream that is good, or at the end of its input. *)
Lemma ignore_line_inp (s : istream) :
  eof_wf s -> fail (cstate s) = false ->
  inp (Console.ignore_line s) = drop_line (inp s).
Proof.
  intros Hwf Hf. unfold Console.ignore_line.
  destruct (good (cstate s)) eqn:Hg; [reflexivity |].
  cbn [inp]. rewrite Hwf; [reflexivity |].
  destruct (cstate s) as [[] [] []]; cbv in Hf, Hg |- *; congruence.
Qed.

(** The extractions of [std::string] and [char] keep [eof_wf]. *)
Lemma Readable_string_eof_wf (s : istream) :
  eof_wf s -> eof_wf (fst (extract (T := bytes) s)).
Proof.
  intros Hwf. unfold extract, Readable_string.
  destruct (good (cstate s)) eqn:Hg.
  - destruct (skipws (inp s)) as [|c r]; [intros _; reflexivity |].
    destruct (token (c :: r)) as [t [|c' r']]; [intros _; reflexivity |].
    intros He. cbn in He. rewrite (good_eofbit _ Hg) in He. discriminate.
  - intros He. cbn in He |- *. apply Hwf.
    destruct (cstate s) as [[] ? ?]; [reflexivity | discriminate He].
Qed.

Lemma Readable_char_eof_wf (s : istream) :
  eof_wf s -> eof_wf (fst (extract (T := byte) s)).
Proof.
  intros Hwf. unfold extract, Readable_char.
  destruct (good (cstate s)) eqn:Hg.
  - destruct (skipws (inp s)) as [|c r]; [intros _; reflexivity |].
    intros He. cbn in He. rewrite (good_eofbit _ Hg) in He. discriminate.
  - intros He. cbn in He |- *. apply Hwf.
    destruct (cstate s) as [[] ? ?]; [reflexivity | discriminate He].
Qed.

Section ConsoleRead.

Context {T : Type} `{Readable T}.

(** A conforming extraction sets [eofbit] only when it ran into the end
    of the input. *)
Hypothesis extract_eof_wf : forall s, eof_wf s -> eof_wf (fst (extract s)).

(** C8. [Console::read<T>] throws [IOError] when the extraction of a [T]
    fails.  When it succeeds, the value extracted is returned and the
    rest of the current input line, with its terminator, has been
    discarded: the input left is what followed that line. *)
Theorem Console_read_discards_line (cin : istream) :
  eof_wf cin ->
  let cin1 := fst (extract cin) in
  let value := snd (extract cin) in
  (fail (cstate cin1) = true ->
   exists e, Console.read cin = (cin1, Throw e)) /\
  (fail (cstate cin1) = false ->
   exists cin2,
     Console.read cin = (cin2, Ok value) /\
     inp cin2 = drop_line (inp cin1)).
Proof.
  intros Hwf cin1 value. unfold Console.read.
  pose proof (extract_eof_wf cin Hwf) as Hwf1. fold cin1 in Hwf1.
  subst cin1 value. destruct (extract cin) as [cin1 value].
  cbn [fst snd] in *. split; intros Hf; rewrite Hf.
  - eexists. reflexivity.
  - eexists. split; [reflexivity |]. apply ignore_line_inp; assumption.
Qed.

End ConsoleRead.

Lemma Console_read_discards_line_witness :
  let cin := IStream [x34; x32; x20; x7a; NL; x6e] goodbit in
  eof_wf cin /\
  fail (cstate (fst (extract (T := bytes) cin))) = false /\
  exists cin2,
    Console.read (T := bytes) cin = (cin2, Ok [x34; x32]) /\
    inp cin2 = [x6e].
Proof.
  intros cin.
  assert (eof_wf cin) as Hwf by (intros He; discriminate He).
  split; [exact Hwf |]. split; [reflexivity |].
  destruct (Console_read_discards_line Readable_string_eof_wf cin Hwf) as [_ Hok].
  destruct (Hok eq_refl) as [cin2 [Hread Hinp]].
  exists cin2. split; [exact Hread | exact Hinp].
Defined.

(** A token that cannot be read: the input holds only blanks. *)
Example Console_read_fails :
  exists cin1 e,
    Console.read (T := bytes) (IStream [x20; NL] goodbit) = (cin1, Throw e).
Proof. eexists _, _. reflexivity. Qed.

(** ** Handles are kept by input and output *)

Lemma pubseekoff_fd w s off way :
  fb_fd <$> buf (fst (pubseekoff w s off way)) = fb_fd <$> buf s.
Proof.
  unfold pubseekoff. destruct s as [[fb|] st]; cbn [buf]; [| reflexivity].
  destruct (_ || _); reflexivity.
Qed.

Lemma seekg_off_fd w s off dir :
  fb_fd <$> buf (seekg_off w s off dir) = fb_fd <$> buf s.
Proof.
  unfold seekg_off, isentry.
  destruct (good _); cbn [setstate buf state].
  all: destruct (fail _); [reflexivity |].
  all: match goal with
       | |- context [pubseekoff ?a ?x ?b ?c] =>
           pose proof (pubseekoff_fd a x b c) as Hp;
           destruct (pubseekoff a x b c) as [s2 p]
       end.
  all: cbn [fst buf] in Hp; destruct (p =? -1); exact Hp.
Qed.

Lemma tellg_fd w s :
  fb_fd <$> buf (fst (tellg w s)) = fb_fd <$> buf s.
Proof.
  unfold tellg, isentry.
  destruct (good _); cbn [setstate buf state].
  all: destruct (fail _); [reflexivity |].
  all: match goal with
       | |- context [pubseekoff ?a ?x ?b ?c] => exact (pubseekoff_fd a x b c)
       end.
Qed.

Lemma istream_read_fd w s dst n :
  fb_fd <$> buf (fst (istream_read w s dst n)) = fb_fd <$> buf s.
Proof.
  unfold istream_read, isentry, sgetn, setstate.
  destruct s as [[fb|] st]; cbn [buf state].
  all: destruct (good st); cbn [buf state fst]; [| reflexivity].
  all: destruct (_ <? _)%nat; reflexivity.
Qed.

Lemma getline_fd w s str :
  fb_fd <$> buf (fst (getline w s str)) = fb_fd <$> buf s.
Proof.
  unfold getline, isentry, setstate.
  destruct s as [[fb|] st]; cbn [buf state].
  all: destruct (good st); cbn [buf state fst]; [| reflexivity].
  all: destruct (getline_scan _) as [[ln n] e].
  all: destruct e, (n =? 0)%nat; reflexivity.
Qed.

Lemma seekp_fd w s pos :
  fb_fd <$> buf (seekp w s pos) = fb_fd <$> buf s.
Proof.
  unfold seekp, pubseekpos. destruct (fail _); [reflexivity |].
  pose proof (pubseekoff_fd w s pos beg) as Hp.
  destruct (pubseekoff w s pos beg) as [s1 p].
  cbn [fst] in Hp. destruct (p =? -1); exact Hp.
Qed.

Lemma ostream_insert_fd w s d :
  fb_fd <$> buf (snd (ostream_insert w s d)) = fb_fd <$> buf s /\
  open_fds (fst (ostream_insert w s d)) = open_fds w.
Proof.
  unfold ostream_insert, osentry, filebuf_write, setstate.
  destruct s as [[fb|] st]; cbn [buf state].
  all: destruct (good st); [| destruct (badbit st); split; reflexivity].
  all: destruct d as [|c d]; [split; reflexivity |]; cbn [buf state].
  - destruct (can_write fb); [| split; reflexivity].
    destruct (has_flag _ _); split; reflexivity.
  - split; reflexivity.
Qed.

(** Every input and output operation of [FileStream] leaves the handle with
    the object, and the set of open handles as it was. *)
Lemma read_all_handle w f : handle_of (fst (read_all w f)) = handle_of f.
Proof.
  unfold read_all, handle_of. destruct (fail _); [reflexivity |].
  pose proof (tellg_fd w (seekg_off w (stream_ f) 0 end_)) as Ht.
  destruct (tellg _ _) as [s2 size]. cbn [fst] in Ht.
  rewrite seekg_off_fd in Ht.
  destruct (size <=? 0); cbn [fst stream_].
  - rewrite seekg_off_fd. exact Ht.
  - pose proof (istream_read_fd w (seekg_off w s2 0 beg)
                  (replicate (Z.to_nat size) NUL) size) as Hr.
    destruct (istream_read _ _ _ _) as [s4 c]. cbn [fst stream_] in *.
    rewrite Hr, seekg_off_fd. exact Ht.
Qed.

Lemma read_line_handle w f : handle_of (fst (read_line w f)) = handle_of f.
Proof.
  unfold read_line, handle_of. destruct (fail (state (stream_ f))); [reflexivity |].
  pose proof (getline_fd w (stream_ f) []) as Hg.
  destruct (getline _ _ _) as [s1 ln]. cbn [fst] in Hg.
  destruct (negb _); exact Hg.
Qed.

Lemma write_handle {T} `{Writable T} w f (value : T) :
  handle_of (snd (fst (write w f value))) = handle_of f /\
  open_fds (fst (fst (write w f value))) = open_fds w.
Proof.
  unfold write, handle_of. destruct (fail _); [split; reflexivity |].
  pose proof (ostream_insert_fd w (stream_ f) (render value)) as Ho.
  destruct (ostream_insert _ _ _) as [w' s']. exact Ho.
Qed.

Lemma write_fmt_handle w f (d : bytes) :
  handle_of (snd (fst (write_fmt w f d))) = handle_of f /\
  open_fds (fst (fst (write_fmt w f d))) = open_fds w.
Proof. exact (write_handle w f d). Qed.

Lemma write_line_handle {T} `{Writable T} w f (value : T) :
  handle_of (snd (fst (write_line w f value))) = handle_of f /\
  open_fds (fst (fst (write_line w f value))) = open_fds w.
Proof.
  unfold write_line. pose proof (write_handle w f value) as [Hh Hfd].
  destruct (write w f value) as [[w1 f1] [u|e]]; cbn [fst snd] in *; [| auto].
  pose proof (ostream_insert_fd w1 (stream_ f1) (render NL)) as [Hh2 Hfd2].
  destruct (ostream_insert _ _ _) as [w2 s2]. cbn [fst snd] in *.
  unfold handle_of in *. cbn [stream_]. split; congruence.
Qed.

Lemma write_line_fmt_handle w f (d : bytes) :
  handle_of (snd (fst (write_line_fmt w f d))) = handle_of f /\
  open_fds (fst (fst (write_line_fmt w f d))) = open_fds w.
Proof. exact (write_line_handle w f d). Qed.

Lemma seek_handle w f pos : handle_of (seek w f pos) = handle_of f.
Proof.
  unfold seek, handle_of, seekg. cbn [stream_].
  rewrite seekp_fd. apply seekg_off_fd.
Qed.

Lemma tell_handle w f : handle_of (fst (tell w f)) = handle_of f.
Proof.
  unfold tell, handle_of. pose proof (tellg_fd w (stream_ f)) as Ht.
  destruct (tellg _ _) as [s1 p]. exact Ht.
Qed.

(** ** Ownership of handles *)

Lemma handles_elem f h : h ∈ handles f <-> handle_of f = Some h.
Proof.
  unfold handles. destruct (handle_of f) as [h'|].
  - rewrite elem_of_singleton. split; congruence.
  - rewrite elem_of_empty. split; [tauto | discriminate].
Qed.

(** Replacing an object by one with the same handle changes no owner. *)
Lemma owns_update P w' a f f' x h :
  objs P !! a = Some f ->
  handle_of f' = handle_of f ->
  owns (Program w' (<[a := f']> (objs P))) x h <-> owns P x h.
Proof.
  intros Ha Hh. unfold owns. cbn [objs].
  destruct (decide (a = x)) as [-> | Hne].
  - rewrite lookup_insert_eq. split.
    + intros [g [[= <-] Hg]]. exists f. split; [exact Ha | congruence].
    + intros [g [Hg Hgh]]. exists f'. split; [reflexivity | congruence].
  - rewrite lookup_insert_ne by exact Hne. reflexivity.
Qed.

Lemma owns_new P w' a f x h :
  objs P !! a = None ->
  owns (Program w' (<[a := f]> (objs P))) x h <->
  (x = a /\ handle_of f = Some h) \/ owns P x h.
Proof.
  intros Ha. unfold owns. cbn [objs].
  destruct (decide (a = x)) as [-> | Hne].
  - rewrite lookup_insert_eq. split.
    + intros [g [[= <-] Hg]]. left. auto.
    + intros [[_ Hf] | [g [Hg _]]]; [eauto | congruence].
  - rewrite lookup_insert_ne by exact Hne. split.
    + intros Hx. right. exact Hx.
    + intros [[-> _] | Hx]; [congruence | exact Hx].
Qed.

Lemma owns_delete P w' a x h :
  owns (Program w' (delete a (objs P))) x h <-> x <> a /\ owns P x h.
Proof.
  unfold owns. cbn [objs].
  destruct (decide (a = x)) as [-> | Hne].
  - rewrite lookup_delete_eq. split.
    + intros [g [Hg _]]. discriminate Hg.
    + intros [Hx _]. congruence.
  - rewrite lookup_delete_ne by exact Hne. split; [split; [congruence | assumption] | tauto].
Qed.

(** After [dst] took over what [src] held and [src] was left empty. *)
Lemma owns_transfer P w' src dst fs n o x h :
  src <> dst ->
  objs P !! src = Some fs ->
  handle_of n = handle_of fs ->
  handle_of o = None ->
  owns (Program w' (<[dst := n]> (<[src := o]> (objs P)))) x h <->
  (x = dst /\ owns P src h) \/ (x <> src /\ x <> dst /\ owns P x h).
Proof.
  intros Hne Hs Hn Ho. unfold owns. cbn [objs].
  destruct (decide (dst = x)) as [-> | Hxd].
  - rewrite lookup_insert_eq. split.
    + intros [g [[= <-] Hg]]. left. split; [reflexivity |].
      exists fs. split; [exact Hs | congruence].
    + intros [[_ [g [Hg Hgh]]] | [_ [Hx _]]]; [| congruence].
      exists n. split; [reflexivity | congruence].
  - rewrite lookup_insert_ne by exact Hxd.
    destruct (decide (src = x)) as [-> | Hxs].
    + rewrite lookup_insert_eq. split.
      * intros [g [[= <-] Hg]]. congruence.
      * intros [[Hx _] | [Hx _]]; congruence.
    + rewrite lookup_insert_ne by exact Hxs. split.
      * intros Hx. right. repeat split; congruence || exact Hx.
      * intros [[Hx _] | [_ [_ Hx]]]; [congruence | exact Hx].
Qed.

Lemma ownership_update P w' a f f' :
  ownership P ->
  objs P !! a = Some f ->
  handle_of f' = handle_of f ->
  open_fds w' = open_fds (pw P) ->
  ownership (Program w' (<[a := f']> (objs P))).
Proof.
  intros [Hu Ho] Ha Hh Hfd. split.
  - intros x y h Hx Hy.
    rewrite (owns_update P w' a f f') in Hx, Hy by assumption. eauto.
  - intros h. cbn [pw]. rewrite Hfd, (Ho h).
    split; intros [x Hx]; exists x.
    + rewrite (owns_update P w' a f f') by assumption. exact Hx.
    + rewrite (owns_update P w' a f f') in Hx by assumption. exact Hx.
Qed.

Lemma ownership_transfer P w' src dst fs n o (D : gset nat) :
  ownership P ->
  src <> dst ->
  objs P !! src = Some fs ->
  handle_of n = handle_of fs ->
  handle_of o = None ->
  (forall h, h ∈ D <-> owns P dst h) ->
  open_fds w' = open_fds (pw P) ∖ D ->
  ownership (Program w' (<[dst := n]> (<[src := o]> (objs P)))).
Proof.
  intros [Hu Ho] Hne Hs Hn Hoo HD Hfd. split.
  - intros x y h Hx Hy.
    rewrite (owns_transfer P w' src dst fs n o) in Hx, Hy by assumption.
    destruct Hx as [[-> Hx] | (Hx1 & Hx2 & Hx)], Hy as [[-> Hy] | (Hy1 & Hy2 & Hy)].
    + reflexivity.
    + destruct Hy1. exact (Hu _ _ _ Hy Hx).
    + destruct Hx1. exact (Hu _ _ _ Hx Hy).
    + exact (Hu _ _ _ Hx Hy).
  - intros h. cbn [pw]. rewrite Hfd, elem_of_difference, (Ho h), (HD h). split.
    + intros [[x Hx] Hnd]. destruct (decide (x = src)) as [-> | Hxs].
      * exists dst. rewrite (owns_transfer P w' src dst fs n o) by assumption.
        left. auto.
      * exists x. rewrite (owns_transfer P w' src dst fs n o) by assumption.
        right. repeat split; [exact Hxs | | exact Hx]. intros ->. auto.
    + intros [x Hx].
      rewrite (owns_transfer P w' src dst fs n o) in Hx by assumption.
      destruct Hx as [[-> Hx] | (Hx1 & Hx2 & Hx)].
      * split; [eauto |]. intros Hd. exact (Hne (Hu _ _ _ Hx Hd)).
      * split; [eauto |]. intros Hd. exact (Hx2 (Hu _ _ _ Hx Hd)).
Qed.

Lemma ownership_new P w' a f h0 :
  ownership P ->
  objs P !! a = None ->
  handle_of f = Some h0 ->
  h0 ∉ open_fds (pw P) ->
  open_fds w' = {[h0]} ∪ open_fds (pw P) ->
  ownership (Program w' (<[a := f]> (objs P))).
Proof.
  intros [Hu Ho] Ha Hf Hfresh Hfd. split.
  - intros x y h Hx Hy.
    rewrite (owns_new P w' a f) in Hx, Hy by assumption.
    destruct Hx as [[-> Hx] | Hx], Hy as [[-> Hy] | Hy].
    + reflexivity.
    + destruct Hfresh. apply Ho. exists y. congruence.
    + destruct Hfresh. apply Ho. exists x. congruence.
    + exact (Hu _ _ _ Hx Hy).
  - intros h. cbn [pw]. rewrite Hfd, elem_of_union, elem_of_singleton, (Ho h). split.
    + intros [-> | [x Hx]].
      * exists a. rewrite (owns_new P w' a f) by assumption. left. auto.
      * exists x. rewrite (owns_new P w' a f) by assumption. right. exact Hx.
    + intros [x Hx]. rewrite (owns_new P w' a f) in Hx by assumption.
      destruct Hx as [[_ Hx] | Hx]; [left; congruence | right; eauto].
Qed.

Lemma ownership_delete P w' a f :
  ownership P ->
  objs P !! a = Some f ->
  open_fds w' = open_fds (pw P) ∖ handles f ->
  ownership (Program w' (delete a (objs P))).
Proof.
  intros [Hu Ho] Ha Hfd.
  assert (forall h, h ∈ handles f <-> owns P a h) as Hown.
  { intros h. rewrite handles_elem. split.
    - intros Hh. exists f. auto.
    - intros [g [Hg Hgh]]. congruence. }
  split.
  - intros x y h Hx Hy. rewrite owns_delete in Hx, Hy.
    exact (Hu _ _ _ (proj2 Hx) (proj2 Hy)).
  - intros h. cbn [pw]. rewrite Hfd, elem_of_difference, (Ho h), (Hown h). split.
    + intros [[x Hx] Hna]. exists x. rewrite owns_delete.
      split; [| exact Hx]. intros ->. auto.
    + intros [x Hx]. rewrite owns_delete in Hx. destruct Hx as [Hxa Hx].
      split; [eauto |]. intros Hd. exact (Hxa (Hu _ _ _ Hx Hd)).
Qed.

(** ** Moving and destroying *)

Lemma FileStream_destroy_fds w f :
  files (FileStream_destroy w f) = files w /\
  open_fds (FileStream_destroy w f) = open_fds w ∖ handles f.
Proof.
  unfold FileStream_destroy, fstream_is_open, fstream_close, handles, handle_of.
  destruct (buf (stream_ f)) as [fb|]; cbn [fst fmap option_fmap option_map].
  - split; reflexivity.
  - split; [reflexivity |]. rewrite difference_empty_L. reflexivity.
Qed.

Lemma FileStream_move_handles other :
  handle_of (fst (FileStream_move other)) = handle_of other /\
  handle_of (snd (FileStream_move other)) = None.
Proof. split; reflexivity. Qed.

(** Move assignment between two distinct objects: the handle of the target
    is given back, the target takes the handle of the source and the
    source is left without one; no file changes. *)
Lemma FileStream_move_assign_spec w this other :
  let '(w', t', o') := FileStream_move_assign w this other in
  files w' = files w /\
  open_fds w' = open_fds w ∖ handles this /\
  handle_of t' = handle_of other /\
  handle_of o' = None /\
  state (stream_ t') = state (stream_ other).
Proof.
  unfold FileStream_move_assign, fstream_is_open, fstream_close,
    fstream_move_assign, handles, handle_of.
  destruct (buf (stream_ this)) as [fb|] eqn:Hb;
    cbn [buf state stream_ fmap option_fmap option_map].
  - repeat split; reflexivity.
  - rewrite Hb. rewrite difference_empty_L. repeat split; reflexivity.
Qed.

(** Every statement keeps the ownership discipline. *)
Lemma step_ownership P Q : step P Q -> ownership P -> ownership Q.
Proof.
  intros Hstep Hinv.
  destruct Hstep as
    [P a path mode w' f Ha Hnew
    |P a b fa n o Ha Hb Hmove
    |P a b [ft Ht] [fo Hfo]
    |P a f Ha
    |P a f f' r Ha Hop
    |P a f f' r Ha Hop
    |P a f d w' f' r Ha Hop
    |P a f d w' f' r Ha Hop
    |P a f d w' f' r Ha Hop
    |P a f d w' f' r Ha Hop
    |P a f pos Ha
    |P a f f' n Ha Hop].
  - (* construction *)
    rewrite FileStream_new_fopen in Hnew.
    destruct (fopen_files _ _ _) as [fs|]; [| discriminate Hnew].
    injection Hnew as <- <-.
    apply (ownership_new P _ a _ (fresh (open_fds (pw P))));
      [exact Hinv | exact Ha | reflexivity | apply is_fresh | reflexivity].
  - (* move construction *)
    destruct (FileStream_move_handles fa) as [Hn Ho]. rewrite Hmove in Hn, Ho.
    apply (ownership_transfer P (pw P) a b fa n o ∅);
      [exact Hinv | | exact Ha | exact Hn | exact Ho | |].
    + intros ->. congruence.
    + intros h. rewrite elem_of_empty. split; [tauto |].
      intros [g [Hg _]]. congruence.
    + rewrite difference_empty_L. reflexivity.
  - (* move assignment *)
    unfold move_assign_at. destruct (decide (a = b)) as [-> | Hne]; [exact Hinv |].
    rewrite Ht, Hfo.
    pose proof (FileStream_move_assign_spec (pw P) ft fo) as Hspec.
    destruct (FileStream_move_assign (pw P) ft fo) as [[w' t'] o'].
    destruct Hspec as (_ & Hfd & Hth & Hoh & _).
    apply (ownership_transfer P w' b a fo t' o' (handles ft));
      [exact Hinv | congruence | exact Hfo | exact Hth | exact Hoh | | exact Hfd].
    intros h. rewrite handles_elem. split.
    + intros Hh. exists ft. auto.
    + intros [g [Hg Hgh]]. congruence.
  - (* destruction *)
    apply (ownership_delete P _ a f); [exact Hinv | exact Ha |].
    apply FileStream_destroy_fds.
  - (* read_all *)
    apply (ownership_update P _ a f f'); [exact Hinv | exact Ha | | reflexivity].
    pose proof (read_all_handle (pw P) f) as Hh. rewrite Hop in Hh. exact Hh.
  - (* read_line *)
    apply (ownership_update P _ a f f'); [exact Hinv | exact Ha | | reflexivity].
    pose proof (read_line_handle (pw P) f) as Hh. rewrite Hop in Hh. exact Hh.
  - (* write *)
    pose proof (write_handle (pw P) f d) as [Hh Hfd]. rewrite Hop in Hh, Hfd.
    apply (ownership_update P _ a f f'); [exact Hinv | exact Ha | exact Hh | exact Hfd].
  - (* write_line *)
    pose proof (write_line_handle (pw P) f d) as [Hh Hfd]. rewrite Hop in Hh, Hfd.
    apply (ownership_update P _ a f f'); [exact Hinv | exact Ha | exact Hh | exact Hfd].
  - (* write_fmt *)
    pose proof (write_fmt_handle (pw P) f d) as [Hh Hfd]. rewrite Hop in Hh, Hfd.
    apply (ownership_update P _ a f f'); [exact Hinv | exact Ha | exact Hh | exact Hfd].
  - (* write_line_fmt *)
    pose proof (write_line_fmt_handle (pw P) f d) as [Hh Hfd]. rewrite Hop in Hh, Hfd.
    apply (ownership_update P _ a f f'); [exact Hinv | exact Ha | exact Hh | exact Hfd].
  - (* seek *)
    apply (ownership_update P _ a f); [exact Hinv | exact Ha | | reflexivity].
    apply seek_handle.
  - (* tell *)
    apply (ownership_update P _ a f f'); [exact Hinv | exact Ha | | reflexivity].
    pose proof (tell_handle (pw P) f) as Hh. rewrite Hop in Hh. exact Hh.
Qed.

Lemma initial_ownership P : initial P -> ownership P.
Proof.
  intros [Hobjs Hfds]. split.
  - intros a b h [f [Hf _]]. rewrite Hobjs, lookup_empty in Hf. discriminate.
  - intros h. rewrite Hfds, elem_of_empty. split; [tauto |].
    intros [a [f [Hf _]]]. rewrite Hobjs, lookup_empty in Hf. discriminate.
Qed.

Lemma reachable_ownership P : reachable P -> ownership P.
Proof.
  induction 1 as [P Hinit | P Q _ IH Hstep].
  - apply initial_ownership. exact Hinit.
  - exact (step_ownership P Q Hstep IH).
Qed.

(** ** C2: one owner per handle *)

(** C2. In every program state a client can reach with the operations of
    the class (which include no copy: the copy constructor and the copy
    assignment are deleted), no handle is owned by two [FileStream]
    objects.  And after a move construction the moved-from object reports
    [is_open() == false] while the new object reports what the source
    reported before the move. *)
Theorem FileStream_exclusive_ownership :
  (forall P, reachable P -> unique_owner P) /\
  (forall other,
     is_open (snd (FileStream_move other)) = false /\
     is_open (fst (FileStream_move other)) = is_open other).
Proof.
  split.
  - intros P HP. exact (proj1 (reachable_ownership P HP)).
  - intros [[b st]]. split; reflexivity.
Qed.

Lemma FileStream_exclusive_ownership_witness :
  let P0 := Program (World ∅ ∅) ∅ in
  exists w1 f,
    FileStream_new (pw P0) "f" Write = Ok (w1, f) /\
    let P1 := Program w1 (<[0%nat := f]> (objs P0)) in
    let P2 := Program (pw P1)
                (<[1%nat := fst (FileStream_move f)]>
                   (<[0%nat := snd (FileStream_move f)]> (objs P1))) in
    reachable P2 /\ unique_owner P2 /\
    is_open f = true /\
    is_open (snd (FileStream_move f)) = false /\
    is_open (fst (FileStream_move f)) = true.
Proof.
  intros P0. eexists _, _. split; [vm_compute; reflexivity |].
  intros P1 P2.
  assert (reachable P2) as HP2.
  { apply (reach_step P1 P2).
    - apply (reach_step P0 P1).
      + apply reach_init. split; reflexivity.
      + apply (step_new P0 0%nat "f" Write); reflexivity.
    - eapply (step_move P1 0%nat 1%nat); reflexivity. }
  destruct FileStream_exclusive_ownership as [Huniq Hmove].
  split; [exact HP2 |]. split; [exact (Huniq P2 HP2) |].
  split; [reflexivity |]. apply Hmove.
Defined.

(** ** C10: move assignment *)

(** C10. Move assignment between two objects gives back the handle the
    target owned (if it was open), then the target takes the handle of the
    source and the source is left without one.  In a reachable program the
    result keeps the ownership discipline (every open handle has exactly
    one owner: none leaked, none owned twice) and the handle the target
    owned is no longer open.  Self-assignment changes nothing. *)
Theorem move_assign_releases_target :
  (forall w this other,
     let '(w', t', o') := FileStream_move_assign w this other in
     open_fds w' = open_fds w ∖ handles this /\
     handle_of t' = handle_of other /\
     handle_of o' = None) /\
  (forall P a b,
     reachable P -> a <> b ->
     is_Some (objs P !! a) -> is_Some (objs P !! b) ->
     ownership (move_assign_at P a b) /\
     (forall h, owns P a h -> h ∉ open_fds (pw (move_assign_at P a b))) /\
     (forall h, owns P b h -> owns (move_assign_at P a b) a h) /\
     (forall h, ~ owns (move_assign_at P a b) b h)) /\
  (forall P a, move_assign_at P a a = P).
Proof.
  split; [| split].
  - intros w this other.
    pose proof (FileStream_move_assign_spec w this other) as Hspec.
    destruct (FileStream_move_assign w this other) as [[w' t'] o'].
    tauto.
  - intros P a b HP Hne Ha Hb.
    split; [| split; [| split]].
    + apply (step_ownership P); [apply step_assign; assumption |].
      apply reachable_ownership. exact HP.
    + intros h [f [Hf Hfh]]. destruct Hb as [fo Hfo].
      unfold move_assign_at. destruct (decide (a = b)); [contradiction |].
      rewrite Hf, Hfo.
      pose proof (FileStream_move_assign_spec (pw P) f fo) as Hspec.
      destruct (FileStream_move_assign (pw P) f fo) as [[w' t'] o'].
      destruct Hspec as (_ & Hfd & _). cbn [pw]. rewrite Hfd.
      rewrite elem_of_difference, handles_elem. tauto.
    + intros h [fo [Hfo Hfoh]]. destruct Ha as [ft Hft].
      unfold move_assign_at. destruct (decide (a = b)); [contradiction |].
      rewrite Hft, Hfo.
      pose proof (FileStream_move_assign_spec (pw P) ft fo) as Hspec.
      destruct (FileStream_move_assign (pw P) ft fo) as [[w' t'] o'].
      destruct Hspec as (_ & _ & Hth & _).
      exists t'. cbn [objs]. rewrite lookup_insert_eq. split; congruence.
    + intros h. destruct Ha as [ft Hft], Hb as [fo Hfo].
      unfold move_assign_at. destruct (decide (a = b)); [contradiction |].
      rewrite Hft, Hfo.
      pose proof (FileStream_move_assign_spec (pw P) ft fo) as Hspec.
      destruct (FileStream_move_assign (pw P) ft fo) as [[w' t'] o'].
      destruct Hspec as (_ & _ & _ & Hoh & _).
      intros [g [Hg Hgh]]. cbn [objs] in Hg.
      rewrite lookup_insert_ne, lookup_insert_eq in Hg by exact Hne.
      congruence.
  - intros P a. unfold move_assign_at.
    destruct (decide (a = a)); [reflexivity | contradiction].
Qed.

Lemma move_assign_releases_target_witness :
  let P0 := Program (World ∅ ∅) ∅ in
  exists w1 f w2 g,
    FileStream_new (pw P0) "f" Write = Ok (w1, f) /\
    FileStream_new w1 "g" Write = Ok (w2, g) /\
    let P1 := Program w1 (<[0%nat := f]> (objs P0)) in
    let P2 := Program w2 (<[1%nat := g]> (objs P1)) in
    reachable P2 /\ 0%nat <> 1%nat /\
    is_Some (objs P2 !! 0%nat) /\ is_Some (objs P2 !! 1%nat) /\
    ownership (move_assign_at P2 0 1) /\
    open_fds (pw P2) = {[0%nat; 1%nat]} /\
    open_fds (pw (move_assign_at P2 0 1)) = {[1%nat]}.
Proof.
  intros P0. eexists _, _, _, _.
  split; [vm_compute; reflexivity |]. split; [vm_compute; reflexivity |].
  intros P1 P2.
  assert (reachable P2) as HP2.
  { apply (reach_step P1 P2).
    - apply (reach_step P0 P1).
      + apply reach_init. split; reflexivity.
      + apply (step_new P0 0%nat "f" Write); reflexivity.
    - apply (step_new P1 1%nat "g" Write); reflexivity. }
  assert (is_Some (objs P2 !! 0%nat)) as H0 by (eexists; reflexivity).
  assert (is_Some (objs P2 !! 1%nat)) as H1 by (eexists; reflexivity).
  assert (0%nat <> 1%nat) as Hne by discriminate.
  destruct move_assign_releases_target as [_ [Hassign _]].
  destruct (Hassign P2 0%nat 1%nat HP2 Hne H0 H1) as [Hown _].
  repeat (split; [assumption |]).
  split; vm_compute; reflexivity.
Defined.

(** * Further properties of the code *)

(** ** The free functions as a whole *)

(** A good stream that is open for output takes every non-empty character
    sequence: the insertion is the write of the file buffer. *)
Lemma ostream_insert_writable w fb st d :
  good st = true ->
  can_write fb = true ->
  d <> [] ->
  exists w' fb',
    filebuf_write w fb d = Some (w', fb') /\
    ostream_insert w (FStream (Some fb) st) d = (w', FStream (Some fb') st).
Proof.
  intros Hg Hw Hd. unfold ostream_insert, osentry. cbn [state buf].
  rewrite Hg. destruct d as [|x d]; [congruence |]. cbn [buf state].
  unfold filebuf_write. rewrite Hw.
  destruct (has_flag (fb_mode fb) ios.app); eexists _, _; split; reflexivity.
Qed.

(** The insertion of an empty sequence changes nothing. *)
Lemma ostream_insert_nil w s : fail (state s) = false -> ostream_insert w s [] = (w, s).
Proof.
  intros Hf. unfold ostream_insert, osentry.
  destruct (good (state s)); [reflexivity |].
  destruct (fail_false_inv _ Hf) as [_ ->]. reflexivity.
Qed.

Lemma set_files_id w : set_files w (files w) = w.
Proof. destruct w; reflexivity. Qed.

(** The constructor in [Append] mode: it fails exactly on the paths the
    system refuses to open for output; otherwise a missing file is created,
    an existing one is left as it is, and the new object is good, at the
    end of the file, with a fresh handle. *)
Lemma FileStream_new_Append w p :
  FileStream_new w p Append =
  if decide (p ∈ unwritable w) then Throw (IOError_new ("Failed to open file: " +:+ p))
  else
    let fs := match files w !! p with
              | Some _ => files w
              | None => <[p := []]> (files w)
              end in
    Ok (set_open_fds (set_files w fs) ({[fresh (open_fds w)]} ∪ open_fds w),
        MkFileStream (FStream (Some (FileBuf (fresh (open_fds w)) p (open_flags Append)
                                       (length (file_content w p)))) goodbit)).
Proof.
  rewrite FileStream_new_fopen. cbn [fopen_files]. unfold file_content.
  destruct (decide (p ∈ unwritable w)); [reflexivity |].
  destruct (files w !! p) as [c|] eqn:Hc; cbn [fopen_pos default].
  - rewrite Hc. reflexivity.
  - rewrite lookup_insert_eq. reflexivity.
Qed.

Lemma FileStream_new_Append_ok w p w' f :
  FileStream_new w p Append = Ok (w', f) -> p ∉ unwritable w.
Proof.
  rewrite FileStream_new_Append.
  destruct (decide (p ∈ unwritable w)); [discriminate | auto].
Qed.

(** A write through a stream in [Append] mode. *)
Lemma ostream_insert_append w fd p n (x : byte) (d : bytes) :
  ostream_insert w (FStream (Some (FileBuf fd p (open_flags Append) n)) goodbit) (x :: d) =
  (set_files w (<[p := file_content w p ++ x :: d]> (files w)),
   FStream (Some (FileBuf fd p (open_flags Append) (n + length (x :: d)))) goodbit).
Proof. reflexivity. Qed.

Lemma append_file_world {T} `{Writable T} (w : world) (p : string) (content : T) :
  p ∉ unwritable w ->
  append_file w p content =
  (set_files w (<[p := file_content w p ++ render content]> (files w)), Ok tt).
Proof.
  intros Hp. unfold append_file. rewrite FileStream_new_Append.
  destruct (decide (p ∈ unwritable w)); [contradiction |]. cbv zeta.
  unfold write, FileStream_destroy, fstream_close, filebuf_close.
  cbn [stream_ state]. change (fail goodbit) with false. cbv iota.
  destruct (render content) as [|x d] eqn:E.
  - rewrite ostream_insert_nil by reflexivity.
    cbn [stream_ buf fb_fd set_open_fds set_files files open_fds unwritable max_offset].
    rewrite release_fresh, app_nil_r. unfold file_content.
    destruct (files w !! p) as [c|] eqn:Hc; cbn [default].
    + rewrite insert_id by exact Hc. destruct w; reflexivity.
    + reflexivity.
  - rewrite ostream_insert_append.
    cbn [stream_ buf fb_fd set_open_fds set_files files open_fds unwritable max_offset].
    rewrite release_fresh. unfold file_content.
    cbn [set_open_fds set_files files open_fds unwritable max_offset].
    destruct (files w !! p) as [c|] eqn:Hc; cbn [default].
    + rewrite Hc. reflexivity.
    + rewrite lookup_insert_eq, insert_insert_eq. reflexivity.
Qed.

Lemma append_file_refused {T} `{Writable T} (w : world) (p : string) (content : T) :
  p ∈ unwritable w ->
  append_file w p content = (w, Throw (IOError_new ("Failed to open file: " +:+ p))).
Proof.
  intros Hp. unfold append_file. rewrite FileStream_new_Append.
  destruct (decide (p ∈ unwritable w)); [reflexivity | contradiction].
Qed.

(** X1. [write_file] on a path the system refuses to open for output
    throws the error of the failed open and changes nothing.  On any other
    path it returns normally; afterwards the file at the path holds
    exactly the rendered content, whatever it held before (longer content
    is truncated away), every other file is untouched and the set of open
    handles is as before. *)
Theorem write_file_effect {T} `{Writable T} (w : world) (p : string) (content : T) :
  write_file w p content =
  if decide (p ∈ unwritable w)
  then (w, Throw (IOError_new ("Failed to open file: " +:+ p)))
  else (set_files w (<[p := render content]> (files w)), Ok tt).
Proof.
  destruct (decide (p ∈ unwritable w)) as [Hp | Hp].
  - apply write_file_refused. exact Hp.
  - apply write_file_spec. exact Hp.
Qed.

(** X2. [append_file] on a path the system refuses to open for output
    throws the error of the failed open and changes nothing.  On any other
    path it returns normally: it creates a missing file, and afterwards
    the file holds its former content (none for a missing file) followed
    by the rendered content, with nothing in between; every other file is
    untouched and the set of open handles is as before. *)
Theorem append_file_effect {T} `{Writable T} (w : world) (p : string) (content : T) :
  append_file w p content =
  if decide (p ∈ unwritable w)
  then (w, Throw (IOError_new ("Failed to open file: " +:+ p)))
  else (set_files w (<[p := file_content w p ++ render content]> (files w)), Ok tt).
Proof.
  destruct (decide (p ∈ unwritable w)) as [Hp | Hp].
  - apply append_file_refused. exact Hp.
  - apply append_file_world. exact Hp.
Qed.

(** X3. When the path can be opened in [Append] mode, two [append_file]
    calls on it followed by [read_file] return the former content, then
    the first and then the second appended value: no separator is
    inserted. *)
Theorem append_file_twice_read_file {T U} `{Writable T} `{Writable U}
    (w : world) (p : string) (a : T) (b : U) :
  (exists w' f, FileStream_new w p Append = Ok (w', f)) ->
  let w1 := fst (append_file w p a) in
  let w2 := fst (append_file w1 p b) in
  append_file w p a = (w1, Ok tt) /\
  append_file w1 p b = (w2, Ok tt) /\
  read_file w2 p = (w2, Ok (file_content w p ++ render a ++ render b)).
Proof.
  intros [w' [f Hopen]] w1 w2. apply FileStream_new_Append_ok in Hopen.
  subst w1 w2. rewrite (append_file_world w p a Hopen). cbn [fst].
  rewrite append_file_world by exact Hopen. cbn [fst].
  split; [reflexivity |]. split; [reflexivity |].
  apply read_file_spec. cbn [files set_files]. rewrite lookup_insert_eq.
  unfold file_content at 1. cbn [files set_files]. rewrite lookup_insert_eq.
  cbn [default]. unfold id. rewrite <- app_assoc. reflexivity.
Qed.

Lemma append_file_twice_read_file_witness :
  let w := World {["log" := [x61]]} ∅ in
  (exists w' f, FileStream_new w "log" Append = Ok (w', f)) /\
  read_file (fst (append_file (fst (append_file w "log" [x62])) "log" [x63; NL])) "log"
    = (World {["log" := [x61; x62; x63; NL]]} ∅, Ok [x61; x62; x63; NL]).
Proof.
  intros w.
  assert (exists w' f, FileStream_new w "log" Append = Ok (w', f)) as Hopen
    by (eexists _, _; vm_compute; reflexivity).
  split; [exact Hopen |].
  destruct (append_file_twice_read_file w "log" [x62] [x63; NL] Hopen) as (_ & _ & Hr).
  rewrite Hr. vm_compute. reflexivity.
Defined.

(** X4. [read_file] returns the whole content of an existing file and
    throws the error of the failed open for a missing one; either way the
    world (files and open handles) is as before. *)
Theorem read_file_result (w : world) (p : string) :
  read_file w p =
  (w, match files w !! p with
      | Some c => Ok c
      | None => Throw (IOError_new ("Failed to open file: " +:+ p))
      end).
Proof.
  destruct (files w !! p) as [c|] eqn:Hc; [apply read_file_spec; exact Hc |].
  unfold read_file. rewrite FileStream_new_fopen. cbn [fopen_files].
  rewrite Hc. reflexivity.
Qed.

(** X5. [read_lines] on an existing file, with fuel for two more polls than
    the file has bytes, returns the lines of the file in file order; on a
    missing file it throws the error of the failed open.  Either way the
    world (files and open handles) is as before. *)
Theorem read_lines_result (w : world) (p : string) (fuel : nat) :
  (length (file_content w p) + 2 <= fuel)%nat ->
  read_lines fuel w p =
  Some (w, match files w !! p with
           | Some c => Ok (lines_of c)
           | None => Throw (IOError_new ("Failed to open file: " +:+ p))
           end).
Proof.
  intros Hfuel. unfold file_content in Hfuel.
  destruct (files w !! p) as [c|] eqn:Hc.
  - apply read_lines_spec; assumption.
  - unfold read_lines. rewrite FileStream_new_fopen. cbn [fopen_files].
    rewrite Hc. reflexivity.
Qed.

Lemma read_lines_result_witness :
  (length (file_content (World {["f" := [x61; NL; NL; x62]]} ∅) "f") + 2 <= 6)%nat /\
  read_lines 6 (World {["f" := [x61; NL; NL; x62]]} ∅) "f"
    = Some (World {["f" := [x61; NL; NL; x62]]} ∅, Ok [[x61]; []; [x62]]).
Proof.
  assert (length (file_content (World {["f" := [x61; NL; NL; x62]]} ∅) "f") + 2 <= 6)%nat
    as Hfuel by (vm_compute; lia).
  split; [exact Hfuel |].
  rewrite (read_lines_result _ _ _ Hfuel). reflexivity.
Defined.

(** ** Opening *)

(** X6. What the constructor does, mode by mode.  [Read] needs the file,
    leaves it as it is and starts at offset 0; it throws when the file is
    missing.  The other three modes throw when the system refuses to open
    the path for output.  Otherwise [ReadWrite] needs the file, leaves it
    as it is and starts at offset 0, and throws when it is missing;
    [Write] creates the file or empties it and starts at offset 0;
    [Append] creates a missing file, leaves an existing one as it is, and
    starts at the end of the file.  No other file is touched.  A new
    object is open, in good state, and owns a handle that was not open
    before. *)
Theorem FileStream_new_effect (w : world) (path : string) (mode : FileMode) :
  let opened fs pos :=
    Ok (set_open_fds (set_files w fs) ({[fresh (open_fds w)]} ∪ open_fds w),
        MkFileStream (FStream (Some (FileBuf (fresh (open_fds w)) path
                                             (open_flags mode) pos)) goodbit)) in
  let refused := Throw (IOError_new ("Failed to open file: " +:+ path)) in
  (fresh (open_fds w) ∉ open_fds w) /\
  FileStream_new w path mode =
  match mode with
  | Read =>
      match files w !! path with
      | Some _ => opened (files w) 0%nat
      | None => refused
      end
  | ReadWrite =>
      if decide (path ∈ unwritable w) then refused
      else match files w !! path with
           | Some _ => opened (files w) 0%nat
           | None => refused
           end
  | Write =>
      if decide (path ∈ unwritable w) then refused
      else opened (<[path := []]> (files w)) 0%nat
  | Append =>
      if decide (path ∈ unwritable w) then refused
      else match files w !! path with
           | Some c => opened (files w) (length c)
           | None => opened (<[path := []]> (files w)) 0%nat
           end
  end.
Proof.
  intros opened refused. split; [apply is_fresh |].
  rewrite FileStream_new_fopen. subst opened refused.
  destruct mode; cbn [fopen_files fopen_pos].
  - destruct (files w !! path); reflexivity.
  - destruct (decide (path ∈ unwritable w)); reflexivity.
  - destruct (decide (path ∈ unwritable w)); [reflexivity |].
    destruct (files w !! path) as [c|] eqn:Hc.
    + rewrite Hc. reflexivity.
    + rewrite lookup_insert_eq. reflexivity.
  - destruct (decide (path ∈ unwritable w)); [reflexivity |].
    destruct (files w !! path); reflexivity.
Qed.

(** An existing file of two bytes, opened in [Append] mode: the object
    reports offset 2. *)
Example Append_opens_at_end :
  exists w1 f f1,
    FileStream_new (World {["f" := [x61; x62]]} ∅) "f" Append = Ok (w1, f) /\
    tell w1 f = (f1, 2).
Proof. eexists _, _, _. split; [vm_compute; reflexivity | reflexivity]. Qed.

(** ** Writing *)

Lemma overwrite_length_prefix (c : bytes) (pos : nat) :
  length (take pos c ++ replicate (pos - length c) NUL) = pos.
Proof. rewrite length_app, length_take, length_replicate. lia. Qed.

(** Writing [b] right behind [a] is writing [a ++ b]. *)
Lemma overwrite_overwrite (c : bytes) (pos : nat) (a b : bytes) :
  overwrite (overwrite c pos a) (pos + length a) b = overwrite c pos (a ++ b).
Proof.
  unfold overwrite.
  set (P := take pos c ++ replicate (pos - length c) NUL).
  assert (length P = pos) as HP by apply overwrite_length_prefix.
  replace (take pos c ++ replicate (pos - length c) NUL ++ a ++ drop (pos + length a) c)
    with ((P ++ a) ++ drop (pos + length a) c)
    by (unfold P; rewrite <- !app_assoc; reflexivity).
  assert (pos + length a = length (P ++ a))%nat as Hlen
    by (rewrite length_app; lia).
  rewrite Hlen at 1. rewrite take_app_length.
  replace (pos + length a - length ((P ++ a) ++ drop (pos + length a) c))%nat
    with 0%nat by (rewrite !length_app; lia).
  cbn [replicate app].
  replace (pos + length a + length b)%nat with (length (P ++ a) + length b)%nat by lia.
  rewrite drop_app_add', drop_drop by reflexivity.
  rewrite length_app, Nat.add_assoc.
  unfold P. rewrite <- !app_assoc. reflexivity.
Qed.

(** Appending at the end of the content. *)
Lemma overwrite_at_end (c d : bytes) : overwrite c (length c) d = c ++ d.
Proof.
  unfold overwrite. rewrite firstn_all, Nat.sub_diag.
  rewrite drop_ge by lia. cbn [replicate app]. rewrite app_nil_r. reflexivity.
Qed.

(** A non-empty insertion into a good stream that is open for output. *)
Lemma ostream_insert_written w fb st d :
  good st = true ->
  can_write fb = true ->
  d <> [] ->
  ostream_insert w (FStream (Some fb) st) d =
  (set_files w (<[fb_path fb := content_written w fb d]> (files w)),
   FStream (Some (fb_set_pos fb (pos_written fb d))) st).
Proof.
  intros Hg Hw Hd. unfold ostream_insert, osentry. cbn [state buf].
  rewrite Hg. destruct d as [|x d]; [congruence |]. cbn [buf state].
  unfold filebuf_write, content_written, pos_written. rewrite Hw.
  destruct (has_flag (fb_mode fb) ios.app); reflexivity.
Qed.

(** Two insertions in a row are the insertion of the concatenation. *)
Lemma ostream_insert_app w fb st (a b : bytes) :
  good st = true ->
  can_write fb = true ->
  (let (w1, s1) := ostream_insert w (FStream (Some fb) st) a in
   ostream_insert w1 s1 b) =
  ostream_insert w (FStream (Some fb) st) (a ++ b).
Proof.
  intros Hg Hw. pose proof (good_not_fail _ Hg) as Hf.
  destruct a as [|x a].
  { rewrite ostream_insert_nil by exact Hf. reflexivity. }
  destruct b as [|y b].
  { rewrite app_nil_r, ostream_insert_written by (assumption || discriminate).
    apply ostream_insert_nil. exact Hf. }
  rewrite !ostream_insert_written by (assumption || discriminate).
  unfold content_written, pos_written, file_content, set_files.
  cbn [fb_set_pos fb_path fb_mode fb_pos files open_fds unwritable max_offset].
  rewrite lookup_insert_eq, insert_insert_eq. cbn [default].
  unfold id.
  change (fb_set_pos (fb_set_pos fb ?n) ?m) with (fb_set_pos fb m).
  destruct (has_flag (fb_mode fb) ios.app).
  - rewrite <- app_assoc, !length_app, Nat.add_assoc. reflexivity.
  - rewrite overwrite_overwrite, length_app, Nat.add_assoc. reflexivity.
Qed.





(** [write_line] of a byte string on a good stream open for output, in
    closed form. *)
Lemma write_line_as_write_bytes w fb st (l : bytes) :
  good st = true ->
  can_write fb = true ->
  write_line w (MkFileStream (FStream (Some fb) st)) l =
  (set_files w (<[fb_path fb := content_written w fb (l ++ [NL])]> (files w)),
   MkFileStream (FStream (Some (fb_set_pos fb (pos_written fb (l ++ [NL])))) st),
   Ok tt).
Proof.
  intros Hg Hw. pose proof (good_not_fail _ Hg) as Hf.
  pose proof (ostream_insert_app w fb st l [NL] Hg Hw) as Happ.
  unfold write_line, write. cbn [stream_ state render Writable_string Writable_char].
  rewrite Hf.
  destruct (ostream_insert w (FStream (Some fb) st) l) as [w1 s1].
  cbn [stream_]. rewrite Happ.
  rewrite ostream_insert_written; [reflexivity | exact Hg | exact Hw |].
  destruct l; discriminate.
Qed.

(** ** Lines written and read back *)

Lemma lines_of_line (l rest : bytes) :
  has_newline l = false ->
  lines_of (l ++ NL :: rest) = l :: lines_of rest.
Proof.
  induction l as [|c l IH]; intros Hl; [reflexivity |].
  cbn [has_newline existsb] in Hl. apply orb_false_elim in Hl as [Hc Hl].
  cbn [app lines_of]. rewrite Hc, (IH Hl). reflexivity.
Qed.

Lemma lines_of_last (l : bytes) :
  has_newline l = false -> l <> [] -> lines_of l = [l].
Proof.
  induction l as [|c l IH]; intros Hl Hne; [congruence |].
  cbn [has_newline existsb] in Hl. apply orb_false_elim in Hl as [Hc Hl].
  cbn [lines_of]. rewrite Hc. destruct l as [|c' l']; [reflexivity |].
  rewrite (IH Hl) by discriminate. reflexivity.
Qed.

Lemma lines_of_join (ls : list bytes) (last : bytes) :
  Forall (fun l => has_newline l = false) ls ->
  has_newline last = false ->
  lines_of (join_lines ls ++ last) = ls ++ match last with [] => [] | _ => [last] end.
Proof.
  intros Hls Hlast. induction Hls as [|l ls Hl _ IH].
  - cbn [join_lines map concat app]. destruct last as [|c last']; [reflexivity |].
    apply lines_of_last; [exact Hlast | discriminate].
  - change (join_lines (l :: ls)) with ((l ++ [NL]) ++ join_lines ls).
    rewrite <- !app_assoc. cbn [app]. rewrite (lines_of_line _ _ Hl), IH. reflexivity.
Qed.

Lemma read_lines_of_join (w : world) (p : string) (ls : list bytes)
    (last : bytes) (fuel : nat) :
  files w !! p = Some (join_lines ls ++ last) ->
  Forall (fun l => has_newline l = false) ls ->
  has_newline last = false ->
  (length (join_lines ls ++ last) + 2 <= fuel)%nat ->
  read_lines fuel w p =
  Some (w, Ok (ls ++ match last with [] => [] | _ => [last] end)).
Proof.
  intros Hc Hls Hlast Hfuel.
  rewrite (read_lines_spec w p _ fuel Hc Hfuel), lines_of_join by assumption.
  reflexivity.
Qed.

(** X9. When a file holds lines without a line terminator inside, each
    followed by a terminator, and then a last piece without terminator,
    [read_lines] (with fuel for two more polls than the file has bytes)
    returns exactly those lines, in order, followed by the last piece when
    it is not empty: a final terminator adds no empty line, an empty line
    in the middle is kept. *)
Theorem read_lines_joined (w : world) (p : string) (ls : list bytes)
    (last : bytes) (fuel : nat) :
  files w !! p = Some (join_lines ls ++ last) ->
  Forall (fun l => has_newline l = false) ls ->
  has_newline last = false ->
  (length (join_lines ls ++ last) + 2 <= fuel)%nat ->
  read_lines fuel w p =
  Some (w, Ok (ls ++ match last with [] => [] | _ => [last] end)).
Proof. apply read_lines_of_join. Qed.

Lemma read_lines_joined_witness :
  let w := World {["f" := [x61; NL; NL; x62; x63]]} ∅ in
  files w !! "f"%string = Some (join_lines [[x61]; []] ++ [x62; x63]) /\
  Forall (fun l => has_newline l = false) [[x61]; []] /\
  has_newline [x62; x63] = false /\
  (length (join_lines [[x61]; []] ++ [x62; x63]) + 2 <= 7)%nat /\
  read_lines 7 w "f" = Some (w, Ok [[x61]; []; [x62; x63]]).
Proof.
  intros w.
  assert (Forall (fun l => has_newline l = false) [[x61]; []]) as Hls
    by (repeat constructor).
  assert (length (join_lines [[x61]; []] ++ [x62; x63]) + 2 <= 7)%nat as Hfuel
    by (vm_compute; lia).
  split; [reflexivity |]. split; [exact Hls |]. split; [reflexivity |].
  split; [exact Hfuel |].
  exact (read_lines_joined w "f" [[x61]; []] [x62; x63] 7 eq_refl Hls eq_refl Hfuel).
Defined.

(** A run of [write_line] calls on a good stream, not in append mode, that
    stands at the end of its file. *)
Lemma write_each_line_at_end (ls : list bytes) :
  forall w fb st c,
    good st = true ->
    can_write fb = true ->
    has_flag (fb_mode fb) ios.app = false ->
    files w !! fb_path fb = Some c ->
    fb_pos fb = length c ->
    write_each_line w (MkFileStream (FStream (Some fb) st)) ls =
    (set_files w (<[fb_path fb := c ++ join_lines ls]> (files w)),
     MkFileStream (FStream (Some (fb_set_pos fb (length (c ++ join_lines ls)))) st)).
Proof.
  induction ls as [|l ls IH]; intros w fb st c Hg Hw Happ Hc Hpos.
  - cbn [write_each_line join_lines map concat]. rewrite app_nil_r.
    rewrite insert_id by exact Hc. rewrite set_files_id.
    rewrite <- Hpos. destruct fb; reflexivity.
  - cbn [write_each_line].
    rewrite (write_line_as_write_bytes w fb st l Hg Hw).
    unfold content_written, pos_written, file_content. rewrite Happ, Hc, Hpos.
    cbn [default]. rewrite overwrite_at_end.
    rewrite (IH _ (fb_set_pos fb (length c + length (l ++ [NL]))) st
               (c ++ l ++ [NL]) Hg Hw Happ).
    + unfold set_files.
      cbn [fb_set_pos fb_path files open_fds unwritable max_offset].
      rewrite insert_insert_eq.
      change (join_lines (l :: ls)) with ((l ++ [NL]) ++ join_lines ls).
      rewrite <- !app_assoc. reflexivity.
    + cbn [fb_set_pos fb_path files set_files]. apply lookup_insert_eq.
    + cbn [fb_set_pos fb_pos]. rewrite !length_app. reflexivity.
Qed.

(** X10. Round trip by lines: a client opens a path in [Write] mode and,
    when the open succeeds, calls [write_line] once for each element of a
    list of byte strings that contain no line terminator, and lets the
    object go.  The file then holds the elements, each followed by a
    terminator, the handle has been given back, and [read_lines] returns
    exactly the list. *)
Theorem write_line_read_lines_roundtrip (w : world) (p : string)
    (ls : list bytes) (fuel : nat) (w1 : world) (f : FileStream) :
  Forall (fun l => has_newline l = false) ls ->
  (length (join_lines ls) + 2 <= fuel)%nat ->
  FileStream_new w p Write = Ok (w1, f) ->
  let '(w2, f2) := write_each_line w1 f ls in
  let w3 := FileStream_destroy w2 f2 in
  w3 = set_files w (<[p := join_lines ls]> (files w)) /\
  read_lines fuel w3 p = Some (w3, Ok ls).
Proof.
  intros Hls Hfuel. rewrite FileStream_new_Write.
  destruct (decide (p ∈ unwritable w)); [discriminate |]. intros [= <- <-].
  rewrite (write_each_line_at_end ls _ _ _ []);
    [| reflexivity | reflexivity | reflexivity | apply lookup_insert_eq | reflexivity].
  cbn [fb_path files open_fds set_files set_open_fds unwritable max_offset app].
  rewrite insert_insert_eq.
  unfold FileStream_destroy, fstream_close, filebuf_close.
  cbn [stream_ fstream_is_open buf fb_set_pos fb_fd fst
       files open_fds set_files set_open_fds unwritable max_offset].
  rewrite release_fresh. split; [reflexivity |].
  pose proof (read_lines_of_join
                (set_files w (<[p := join_lines ls]> (files w))) p ls [] fuel)
    as Hread.
  rewrite !app_nil_r in Hread. apply Hread; try assumption; try reflexivity.
  apply lookup_insert_eq.
Qed.

Lemma write_line_read_lines_roundtrip_witness :
  let w := World {["f" := [x7a]]} ∅ in
  let w1 := World {["f" := []]} {[0%nat]} in
  let f := MkFileStream (FStream (Some (FileBuf 0 "f" (open_flags Write) 0)) goodbit) in
  Forall (fun l => has_newline l = false) [[x68; x69]; []; [x21]] /\
  (length (join_lines [[x68; x69]; []; [x21]]) + 2 <= 8)%nat /\
  FileStream_new w "f" Write = Ok (w1, f) /\
  let '(w2, f2) := write_each_line w1 f [[x68; x69]; []; [x21]] in
  let w3 := FileStream_destroy w2 f2 in
  w3 = set_files w (<["f" := join_lines [[x68; x69]; []; [x21]]]> (files w)) /\
  read_lines 8 w3 "f" = Some (w3, Ok [[x68; x69]; []; [x21]]).
Proof.
  intros w w1 f.
  assert (Forall (fun l => has_newline l = false) [[x68; x69]; []; [x21]]) as Hls
    by (repeat constructor).
  assert (length (join_lines [[x68; x69]; []; [x21]]) + 2 <= 8)%nat as Hfuel
    by (vm_compute; lia).
  assert (FileStream_new w "f" Write = Ok (w1, f)) as Hopen
    by (vm_compute; reflexivity).
  split; [exact Hls |]. split; [exact Hfuel |]. split; [exact Hopen |].
  exact (write_line_read_lines_roundtrip w "f" _ 8 w1 f Hls Hfuel Hopen).
Defined.

(** ** Writes that do not happen *)

Lemma FileStream_eta f : MkFileStream (stream_ f) = f.
Proof. destruct f; reflexivity. Qed.

Lemma fail_set_bad st : fail (set_bad st) = true.
Proof. destruct st as [? [] ?]; reflexivity. Qed.

Lemma fail_set_fail st : fail (set_fail st) = true.
Proof. reflexivity. Qed.

(** X11. [write] on a good stream that is not open for output (opened in
    [Read] mode, or left behind by a move) does not throw: the value is
    dropped, no file changes, the position stays and the stream is left
    failed.  Only the next [write] throws "File not open for writing". *)
Theorem write_not_open_for_output {T U} `{Writable T} `{Writable U}
    (w : world) (f : FileStream) (value : T) (next : U) :
  good (state (stream_ f)) = true ->
  (forall fb, buf (stream_ f) = Some fb -> can_write fb = false) ->
  render value <> [] ->
  exists f',
    write w f value = (w, f', Ok tt) /\
    buf (stream_ f') = buf (stream_ f) /\
    fail (state (stream_ f')) = true /\
    write w f' next = (w, f', Throw (IOError_new "File not open for writing")).
Proof.
  intros Hg Hnw Hne.
  destruct f as [[b st]]. cbn [stream_ buf state] in *.
  exists (MkFileStream (FStream b (set_bad st))).
  split; [| split; [reflexivity | split; [apply fail_set_bad |]]].
  - unfold write. cbn [stream_ state]. rewrite (good_not_fail _ Hg).
    unfold ostream_insert, osentry. cbn [state buf]. rewrite Hg.
    destruct (render value) as [|x d]; [congruence |].
    destruct b as [fb|]; [| reflexivity]. cbn [buf state].
    unfold filebuf_write. rewrite (Hnw fb eq_refl). reflexivity.
  - unfold write. cbn [stream_ state]. rewrite fail_set_bad. reflexivity.
Qed.

Lemma write_not_open_for_output_witness :
  let w := World {["f" := [x61]]} {[0%nat]} in
  let f := MkFileStream (FStream (Some (FileBuf 0 "f" (open_flags Read) 0)) goodbit) in
  good (state (stream_ f)) = true /\
  (forall fb, buf (stream_ f) = Some fb -> can_write fb = false) /\
  render [x62] <> [] /\
  exists f',
    write w f [x62] = (w, f', Ok tt) /\
    write w f' [x62] = (w, f', Throw (IOError_new "File not open for writing")).
Proof.
  intros w f.
  assert (forall fb, buf (stream_ f) = Some fb -> can_write fb = false) as Hnw
    by (intros fb [= <-]; reflexivity).
  assert (render [x62] <> []) as Hne by discriminate.
  split; [reflexivity |]. split; [exact Hnw |]. split; [exact Hne |].
  destruct (write_not_open_for_output w f [x62] [x62] eq_refl Hnw Hne)
    as [f' (Hw & _ & _ & Hn)].
  exists f'. split; [exact Hw | exact Hn].
Defined.

(** X12. [write] on a stream whose [eofbit] is set while [failbit] and
    [badbit] are not (the state [read_line] leaves after a last line
    without terminator) does not throw and writes nothing: no file
    changes and the position stays. *)
Theorem write_at_eof_is_dropped {T} `{Writable T}
    (w : world) (f : FileStream) (value : T) :
  eofbit (state (stream_ f)) = true ->
  fail (state (stream_ f)) = false ->
  exists f',
    write w f value = (w, f', Ok tt) /\
    buf (stream_ f') = buf (stream_ f).
Proof.
  intros He Hf. unfold write. rewrite Hf.
  unfold ostream_insert, osentry.
  destruct (fail_false_inv _ Hf) as [_ Hb]. rewrite Hb.
  replace (good (state (stream_ f))) with false
    by (unfold good; rewrite He; reflexivity).
  eexists. split; reflexivity.
Qed.

Lemma write_at_eof_is_dropped_witness :
  let w := World {["f" := [x61; x62]]} ∅ in
  exists w1 f0 f1 f2,
    FileStream_new w "f" ReadWrite = Ok (w1, f0) /\
    read_line w1 f0 = (f1, Some [x61; x62]) /\
    eofbit (state (stream_ f1)) = true /\
    fail (state (stream_ f1)) = false /\
    write w1 f1 [x63] = (w1, f2, Ok tt) /\
    file_content w1 "f" = [x61; x62].
Proof.
  intros w.
  assert (exists w1 f0 f1,
            FileStream_new w "f" ReadWrite = Ok (w1, f0) /\
            read_line w1 f0 = (f1, Some [x61; x62]) /\
            eofbit (state (stream_ f1)) = true /\
            fail (state (stream_ f1)) = false /\
            file_content w1 "f" = [x61; x62]) as (w1 & f0 & f1 & Hn & Hl & He & Hf & Hc).
  { eexists _, _, _. split; [vm_compute; reflexivity |].
    split; [vm_compute; reflexivity |]. repeat split. }
  destruct (write_at_eof_is_dropped w1 f1 [x63] He Hf) as [f2 [Hw _]].
  exists w1, f0, f1, f2. repeat split; assumption.
Defined.

(** ** Failure is permanent *)

Lemma fail_not_good st : fail st = true -> good st = false.
Proof. destruct st as [[] [] []]; cbv; congruence. Qed.

Lemma seek_failed w f pos :
  fail (state (stream_ f)) = true ->
  seek w f pos =
  MkFileStream (FStream (buf (stream_ f)) (set_fail (clear_eof (state (stream_ f))))).
Proof.
  intros Hf. unfold seek, seekg, seekg_off, seekp, isentry, setstate. cbn [state buf stream_].
  rewrite (fail_not_good (clear_eof (state (stream_ f)))) by exact Hf.
  cbn [state buf]. rewrite fail_set_fail. cbn [state]. rewrite fail_set_fail. reflexivity.
Qed.

Lemma tell_failed w f :
  fail (state (stream_ f)) = true ->
  tell w f =
  (MkFileStream (FStream (buf (stream_ f)) (set_fail (state (stream_ f)))), SIZE_MAX).
Proof.
  intros Hf. unfold tell, tellg, isentry, setstate.
  rewrite (fail_not_good _ Hf).
  cbn [state buf]. rewrite fail_set_fail. reflexivity.
Qed.

(** X13. A [FileStream] whose [failbit] or [badbit] is set never recovers
    (the class offers nothing that clears the state): [read_all] and every
    write function throw, [read_line] reports no line, [tell] returns the
    largest [size_t] value, and [seek] moves nothing.  None of them changes
    a file or the position, and the stream is still failed afterwards. *)
Theorem failed_stream_stays_failed (w : world) (f : FileStream) (pos : Z) (d : bytes) :
  fail (state (stream_ f)) = true ->
  read_all w f = (f, Throw (IOError_new "File not open for reading")) /\
  read_line w f = (f, None) /\
  write w f d = (w, f, Throw (IOError_new "File not open for writing")) /\
  write_line w f d = (w, f, Throw (IOError_new "File not open for writing")) /\
  write_fmt w f d = (w, f, Throw (IOError_new "File not open for writing")) /\
  write_line_fmt w f d = (w, f, Throw (IOError_new "File not open for writing")) /\
  (buf (stream_ (seek w f pos)) = buf (stream_ f) /\
   fail (state (stream_ (seek w f pos))) = true) /\
  (snd (tell w f) = SIZE_MAX /\
   buf (stream_ (fst (tell w f))) = buf (stream_ f) /\
   fail (state (stream_ (fst (tell w f)))) = true).
Proof.
  intros Hf.
  assert (write w f d = (w, f, Throw (IOError_new "File not open for writing"))) as Hw
    by (unfold write; rewrite Hf; reflexivity).
  repeat split.
  - unfold read_all. rewrite Hf. reflexivity.
  - unfold read_line. rewrite Hf. reflexivity.
  - exact Hw.
  - unfold write_line. rewrite Hw. reflexivity.
  - exact Hw.
  - unfold write_line_fmt.
    change (write_fmt w f d) with (write w f d). rewrite Hw. reflexivity.
  - rewrite seek_failed by exact Hf. reflexivity.
  - rewrite seek_failed by exact Hf. reflexivity.
  - rewrite tell_failed by exact Hf. reflexivity.
  - rewrite tell_failed by exact Hf. reflexivity.
  - rewrite tell_failed by exact Hf. reflexivity.
Qed.

Lemma failed_stream_stays_failed_witness :
  let w := World {["f" := [x61]]} {[0%nat]} in
  let f := MkFileStream (FStream (Some (FileBuf 0 "f" (open_flags ReadWrite) 1))
                                 (IoState true true false)) in
  fail (state (stream_ f)) = true /\
  read_all w f = (f, Throw (IOError_new "File not open for reading")) /\
  write w f [x62] = (w, f, Throw (IOError_new "File not open for writing")) /\
  position (seek w f 0) = Some 1%nat.
Proof.
  intros w f. split; [reflexivity |].
  destruct (failed_stream_stays_failed w f 0 [x62] eq_refl)
    as (Hr & _ & Hw & _ & _ & _ & [Hs _] & _).
  split; [exact Hr |]. split; [exact Hw |].
  unfold position. rewrite Hs. reflexivity.
Defined.

(** X14. The absence marker of [read_line] is final: when [read_line]
    returns no line (end of the file, or a stream that cannot be read), the
    stream is left with [failbit] or [badbit] set, so that every later
    [read_line] returns no line again and [read_all] and [write] throw,
    also on a stream opened in [ReadWrite] mode. *)
Theorem read_line_none_is_final {T} `{Writable T}
    (w : world) (f f' : FileStream) (value : T) :
  read_line w f = (f', None) ->
  fail (state (stream_ f')) = true /\
  read_line w f' = (f', None) /\
  read_all w f' = (f', Throw (IOError_new "File not open for reading")) /\
  write w f' value = (w, f', Throw (IOError_new "File not open for writing")).
Proof.
  intros Hrl.
  assert (fail (state (stream_ f')) = true) as Hf.
  { unfold read_line in Hrl. destruct (fail (state (stream_ f))) eqn:Hf0.
    - injection Hrl as <-. exact Hf0.
    - destruct (getline w (stream_ f) []) as [s1 ln].
      destruct (fail (state s1)) eqn:Hf1; cbn [negb] in Hrl; [| discriminate].
      injection Hrl as <-. exact Hf1. }
  split; [exact Hf |].
  unfold read_line, read_all, write. rewrite Hf. repeat split.
Qed.

Lemma read_line_none_is_final_witness :
  let w := World {["f" := []]} {[0%nat]} in
  let f := MkFileStream (FStream (Some (FileBuf 0 "f" (open_flags ReadWrite) 0)) goodbit) in
  let f' := MkFileStream (FStream (Some (FileBuf 0 "f" (open_flags ReadWrite) 0))
                                  (IoState true true false)) in
  read_line w f = (f', None) /\
  fail (state (stream_ f')) = true /\
  write w f' [x61] = (w, f', Throw (IOError_new "File not open for writing")).
Proof.
  intros w f f'.
  assert (read_line w f = (f', None)) as Hrl by reflexivity.
  destruct (read_line_none_is_final w f f' [x61] Hrl) as (Hf & _ & _ & Hw).
  split; [exact Hrl |]. split; [exact Hf | exact Hw].
Defined.

(** ** Positioning *)

Lemma seek_open w fb st pos :
  fail st = false ->
  0 <= pos ->
  pos <= max_offset w \/ pos <= Z.of_nat (length (file_content w (fb_path fb))) ->
  seek w (MkFileStream (FStream (Some fb) st)) pos =
  MkFileStream (FStream (Some (fb_set_pos fb (Z.to_nat pos))) (clear_eof st)).
Proof.
  intros Hf Hpos Hle. unfold seek, seekg. cbn [stream_].
  rewrite seekg_off_open by (cbn [seek_base]; auto; lia).
  unfold seekp, pubseekpos. cbn [state seek_base].
  rewrite fail_clear_eof, Hf.
  rewrite pubseekoff_open by (cbn [seek_base fb_set_pos fb_path]; auto; lia).
  cbn [seek_base].
  destruct (0 + pos =? -1) eqn:E; [apply Z.eqb_eq in E; lia |].
  reflexivity.
Qed.

(** A seek to an offset the system does not accept: [seekg] sets
    [failbit], and [seekp] then does nothing. *)
Lemma seek_refused w fb st pos :
  fail st = false ->
  seekable w fb pos = false ->
  seek w (MkFileStream (FStream (Some fb) st)) pos =
  MkFileStream (FStream (Some fb) (set_fail (clear_eof st))).
Proof.
  intros Hf Hs. unfold seek, seekg, seekg_off, isentry, setstate. cbn [stream_ buf state].
  rewrite (good_clear_eof _ Hf). cbn [state].
  rewrite fail_clear_eof, Hf.
  unfold pubseekoff. cbn [buf state seek_base orb]. rewrite Z.add_0_l, Hs.
  cbn [Z.eqb Pos.eqb buf state].
  unfold seekp. cbn [state]. rewrite fail_set_fail. reflexivity.
Qed.

Lemma seekable_false w fb p :
  max_offset w < p ->
  Z.of_nat (length (file_content w (fb_path fb))) < p ->
  seekable w fb p = false.
Proof.
  intros Hm Hl. unfold seekable.
  replace (p <=? max_offset w) with false by (symmetry; apply Z.leb_gt; exact Hm).
  replace (p <=? Z.of_nat (length (file_content w (fb_path fb)))) with false
    by (symmetry; apply Z.leb_gt; exact Hl).
  apply andb_false_r.
Qed.

(** X15. On an open [FileStream] whose state has neither [failbit] nor
    [badbit], and for an offset [n] from 0 up to the largest offset the
    system supports for the file (inside the content or beyond its end),
    [seek(n)] followed by [tell()] returns [n]; the seek clears [eofbit]
    and changes no file.  For an offset beyond the largest one the seek
    moves nothing and leaves the stream failed, and [tell()] returns the
    largest [size_t] value. *)
Theorem seek_then_tell (w : world) (f : FileStream) (fb : filebuf) (n : Z) :
  buf (stream_ f) = Some fb ->
  fail (state (stream_ f)) = false ->
  0 <= n < 2 ^ 63 ->
  (n <= max_offset w \/ n <= Z.of_nat (length (file_content w (fb_path fb))) ->
   tell w (seek w f n) = (seek w f n, n) /\
   position (seek w f n) = Some (Z.to_nat n) /\
   good (state (stream_ (seek w f n))) = true) /\
  (max_offset w < n /\ Z.of_nat (length (file_content w (fb_path fb))) < n ->
   position (seek w f n) = position f /\
   fail (state (stream_ (seek w f n))) = true /\
   snd (tell w (seek w f n)) = SIZE_MAX).
Proof.
  intros Hb Hf Hn. destruct f as [[b st]]. cbn [stream_ buf state] in *. subst b.
  split.
  - intros Hle. rewrite seek_open by (auto; lia).
    split; [| split; [reflexivity | apply good_clear_eof; exact Hf]].
    unfold tell. cbn [stream_].
    rewrite tellg_open by (apply good_clear_eof; exact Hf).
    cbn [fb_set_pos fb_pos]. rewrite Z2Nat.id by lia.
    unfold to_size_t, size_t_bits. rewrite Z.mod_small by lia. reflexivity.
  - intros [Hm Hl]. rewrite seek_refused by (auto using seekable_false).
    split; [reflexivity |]. split; [apply fail_set_fail |].
    rewrite tell_failed by apply fail_set_fail. reflexivity.
Qed.

Lemma seek_then_tell_witness :
  let w := World {["f" := [x61; x62]]} {[0%nat]} in
  let fb := FileBuf 0 "f" (open_flags Read) 2 in
  let f := MkFileStream (FStream (Some fb) (IoState true false false)) in
  buf (stream_ f) = Some fb /\
  fail (state (stream_ f)) = false /\
  0 <= 7 < 2 ^ 63 /\
  7 <= max_offset w /\
  snd (tell w (seek w f 7)) = 7.
Proof.
  intros w fb f.
  assert (0 <= 7 < 2 ^ 63) as Hn by lia.
  assert (7 <= max_offset w) as Hm by (vm_compute; discriminate).
  split; [reflexivity |]. split; [reflexivity |]. split; [exact Hn |].
  split; [exact Hm |].
  destruct (seek_then_tell w f fb 7 eq_refl eq_refl Hn) as [Hin _].
  destruct (Hin (or_introl Hm)) as [Ht _].
  rewrite Ht. reflexivity.
Defined.

(** A file system whose largest offset is [2^44 - 4096]: a seek to the
    offset after it fails, the position stays, and [tell] returns the
    largest [size_t] value. *)
Example seek_beyond_largest_offset :
  let w := MkWorld {["f" := [x61; x62]]} {[0%nat]} ∅ (2 ^ 44 - 4096) in
  let f := MkFileStream (FStream (Some (FileBuf 0 "f" (open_flags ReadWrite) 1)) goodbit) in
  position (seek w f (2 ^ 44 - 4095)) = Some 1%nat /\
  fail (state (stream_ (seek w f (2 ^ 44 - 4095)))) = true /\
  snd (tell w (seek w f (2 ^ 44 - 4095))) = 2 ^ 64 - 1.
Proof. intros w f. repeat split; vm_compute; reflexivity. Qed.

(** X16. In [Append] mode the position does not matter for output: after
    a [seek] to an offset the system accepts, [write] returns normally,
    and once the object has been destroyed the file holds its former
    content followed by the value. *)
Theorem append_mode_ignores_seek {T} `{Writable T}
    (w : world) (f : FileStream) (fb : filebuf) (n : Z) (value : T) :
  buf (stream_ f) = Some fb ->
  has_flag (fb_mode fb) ios.app = true ->
  fail (state (stream_ f)) = false ->
  0 <= n ->
  n <= max_offset w \/ n <= Z.of_nat (length (file_content w (fb_path fb))) ->
  exists w' f',
    write w (seek w f n) value = (w', f', Ok tt) /\
    file_content (FileStream_destroy w' f') (fb_path fb)
      = file_content w (fb_path fb) ++ render value /\
    open_fds (FileStream_destroy w' f') = open_fds w ∖ {[fb_fd fb]}.
Proof.
  intros Hb Happ Hf Hn Hle. destruct f as [[b st]]. cbn [stream_ buf state] in *. subst b.
  rewrite seek_open by (auto; lia).
  unfold write. cbn [stream_ state].
  change (fail (clear_eof st)) with (fail st). rewrite Hf.
  destruct (render value) as [|x d] eqn:E.
  - rewrite ostream_insert_nil by exact Hf.
    eexists _, _. split; [reflexivity |]. rewrite app_nil_r. split; reflexivity.
  - rewrite ostream_insert_written;
      [| apply good_clear_eof; exact Hf
       | unfold can_write; cbn [fb_set_pos fb_mode]; rewrite Happ; apply orb_true_r
       | discriminate].
    eexists _, _. split; [reflexivity |]. split; [| reflexivity].
    unfold FileStream_destroy, fstream_close, filebuf_close, set_open_fds, set_files.
    cbn [stream_ fstream_is_open buf fst files open_fds].
    unfold content_written, file_content at 1. cbn [fb_set_pos fb_mode fb_path files].
    rewrite Happ, lookup_insert_eq. reflexivity.
Qed.

Lemma append_mode_ignores_seek_witness :
  let w := World {["f" := [x61; x62]]} {[0%nat]} in
  let fb := FileBuf 0 "f" (open_flags Append) 2 in
  let f := MkFileStream (FStream (Some fb) goodbit) in
  buf (stream_ f) = Some fb /\
  has_flag (fb_mode fb) ios.app = true /\
  fail (state (stream_ f)) = false /\
  0 <= 1 /\
  (1 <= max_offset w \/ 1 <= Z.of_nat (length (file_content w (fb_path fb)))) /\
  exists w' f',
    write w (seek w f 1) [x63] = (w', f', Ok tt) /\
    file_content (FileStream_destroy w' f') "f" = [x61; x62; x63] /\
    open_fds (FileStream_destroy w' f') = open_fds w ∖ {[0%nat]}.
Proof.
  intros w fb f.
  assert (0 <= 1) as Hn by lia.
  assert (1 <= max_offset w \/ 1 <= Z.of_nat (length (file_content w (fb_path fb))))
    as Hle by (right; vm_compute; discriminate).
  split; [reflexivity |]. split; [reflexivity |]. split; [reflexivity |].
  split; [exact Hn |]. split; [exact Hle |].
  exact (append_mode_ignores_seek w f fb 1 [x63] eq_refl eq_refl eq_refl Hn Hle).
Defined.

(** ** Reading the whole file again *)

(** X17. On a stream open for input whose state has neither [failbit] nor
    [badbit], [read_all] returns the whole file wherever the position was
    (also after lines have been read), and can be repeated: a second
    [read_all] returns the same content and leaves the same stream.  The
    position is then at the end, so that the next [read_line] finds no
    line. *)
Theorem read_all_repeatable (w : world) (f : FileStream) (fb : filebuf) :
  buf (stream_ f) = Some fb ->
  can_read fb = true ->
  fail (state (stream_ f)) = false ->
  exists f1,
    read_all w f = (f1, Ok (file_content w (fb_path fb))) /\
    read_all w f1 = (f1, Ok (file_content w (fb_path fb))) /\
    snd (read_line w f1) = None.
Proof.
  intros Hb Hr Hf. destruct f as [[b st]]. cbn [stream_ buf state] in *. subst b.
  eexists. split; [apply read_all_readable; assumption |].
  split.
  - rewrite read_all_readable by (assumption || exact Hf).
    reflexivity.
  - rewrite read_line_good by (assumption || (apply good_clear_eof; exact Hf)).
    cbn [fb_set_pos fb_pos fb_path]. rewrite drop_all. reflexivity.
Qed.

Lemma read_all_repeatable_witness :
  let w := World {["f" := [x61; NL; x62]]} {[0%nat]} in
  let fb := FileBuf 0 "f" (open_flags Read) 2 in
  let f := MkFileStream (FStream (Some fb) goodbit) in
  buf (stream_ f) = Some fb /\
  can_read fb = true /\
  fail (state (stream_ f)) = false /\
  exists f1,
    read_all w f = (f1, Ok [x61; NL; x62]) /\
    read_all w f1 = (f1, Ok [x61; NL; x62]).
Proof.
  intros w fb f.
  split; [reflexivity |]. split; [reflexivity |]. split; [reflexivity |].
  destruct (read_all_repeatable w f fb eq_refl eq_refl eq_refl) as [f1 [H1 [H2 _]]].
  exists f1. split; [exact H1 | exact H2].
Defined.

(** ** The console *)

Lemma getline_scan_line (l rest : bytes) :
  has_newline l = false ->
  getline_scan (l ++ NL :: rest) = (l, S (length l), false).
Proof.
  induction l as [|c l IH]; intros Hl; [reflexivity |].
  cbn [has_newline existsb] in Hl. apply orb_false_elim in Hl as [Hc Hl].
  cbn [app getline_scan]. rewrite Hc, (IH Hl). reflexivity.
Qed.

Lemma getline_scan_last (l : bytes) :
  has_newline l = false ->
  getline_scan l = (l, length l, true).
Proof.
  induction l as [|c l IH]; intros Hl; [reflexivity |].
  cbn [has_newline existsb] in Hl. apply orb_false_elim in Hl as [Hc Hl].
  cbn [getline_scan]. rewrite Hc, (IH Hl). reflexivity.
Qed.

Lemma has_newline_app (l1 l2 : bytes) :
  has_newline (l1 ++ NL :: l2) = true.
Proof.
  unfold has_newline. rewrite existsb_app. cbn [existsb].
  change (Byte.eqb NL NL) with true. cbn [orb]. apply orb_true_r.
Qed.

Lemma drop_past_separator (l : bytes) (x : byte) (rest : bytes) :
  drop (S (length l)) (l ++ x :: rest) = rest.
Proof. induction l as [|c l IH]; [reflexivity | exact IH]. Qed.

(** [Console::read_line] on good input that still has a whole line. *)
Lemma Console_read_line_line (cin : istream) (l rest : bytes) :
  good (cstate cin) = true ->
  inp cin = l ++ NL :: rest ->
  has_newline l = false ->
  Console.read_line cin = (IStream rest (cstate cin), Ok l).
Proof.
  intros Hg Hin Hl. unfold Console.read_line, Console.getline.
  rewrite Hg, Hin, (getline_scan_line _ _ Hl). cbn [Nat.eqb cstate].
  rewrite (good_not_fail _ Hg), drop_past_separator. reflexivity.
Qed.

(** X18. [Console::read_line] on a good [std::cin]: when the input holds a
    line terminator, the characters before the first one are returned and
    the input continues behind it; when the input is not empty and holds no
    terminator, all of it is returned and [eofbit] is set; when the input
    is empty, an [IOError] is thrown and [std::cin] is left failed. *)
Theorem Console_read_line_result (cin : istream) :
  good (cstate cin) = true ->
  (forall l rest,
     inp cin = l ++ NL :: rest -> has_newline l = false ->
     Console.read_line cin = (IStream rest (cstate cin), Ok l)) /\
  (inp cin <> [] -> has_newline (inp cin) = false ->
   Console.read_line cin = (IStream [] (set_eof (cstate cin)), Ok (inp cin))) /\
  (inp cin = [] ->
   exists cin' e,
     Console.read_line cin = (cin', Throw e) /\ fail (cstate cin') = true).
Proof.
  intros Hg. split; [| split].
  - intros l rest Hin Hl. apply Console_read_line_line; assumption.
  - intros Hne Hl. unfold Console.read_line, Console.getline.
    rewrite Hg, (getline_scan_last _ Hl), drop_all.
    destruct (Nat.eqb_spec (length (inp cin)) 0) as [E | _];
      [apply length_zero_iff_nil in E; congruence |].
    cbn [cstate].
    replace (fail (set_eof (cstate cin))) with false
      by (symmetry; exact (good_not_fail _ Hg)).
    reflexivity.
  - intros Hin. unfold Console.read_line, Console.getline.
    rewrite Hg, Hin. cbn. eexists _, _. split; reflexivity.
Qed.

Lemma Console_read_line_result_witness :
  let cin := IStream [x68; x69; NL; x79] goodbit in
  good (cstate cin) = true /\
  inp cin = [x68; x69] ++ NL :: [x79] /\
  has_newline [x68; x69] = false /\
  Console.read_line cin = (IStream [x79] goodbit, Ok [x68; x69]).
Proof.
  intros cin.
  split; [reflexivity |]. split; [reflexivity |]. split; [reflexivity |].
  destruct (Console_read_line_result cin eq_refl) as [Hline _].
  exact (Hline [x68; x69] [x79] eq_refl eq_refl).
Defined.

(** X19. [Console::read] followed by [Console::read_line]: when the
    extraction succeeds and leaves a good [std::cin] with the rest of the
    current line still in the input, [read] returns the value, and the
    following [read_line] returns the whole next line, not the rest of the
    line the value was on. *)
Theorem Console_read_then_read_line {T} `{Readable T}
    (cin : istream) (junk line rest : bytes) :
  let cin1 := fst (extract cin) in
  good (cstate cin1) = true ->
  inp cin1 = junk ++ NL :: line ++ NL :: rest ->
  has_newline junk = false ->
  has_newline line = false ->
  exists cin2,
    Console.read cin = (cin2, Ok (snd (extract cin))) /\
    Console.read_line cin2 = (IStream rest (cstate cin1), Ok line).
Proof.
  intros cin1 Hg Hin Hj Hl. unfold Console.read.
  subst cin1. destruct (extract cin) as [cin1 value]. cbn [fst snd] in *.
  rewrite (good_not_fail _ Hg). eexists. split; [reflexivity |].
  unfold Console.ignore_line. rewrite Hg, Hin, has_newline_app, (drop_line_app _ _ Hj).
  apply (Console_read_line_line (IStream (line ++ NL :: rest) (cstate cin1)));
    [exact Hg | reflexivity | exact Hl].
Qed.

Lemma Console_read_then_read_line_witness :
  let cin := IStream [x34; x32; x20; NL; x68; x69; NL; x7a] goodbit in
  good (cstate (fst (extract (T := bytes) cin))) = true /\
  inp (fst (extract (T := bytes) cin)) = [x20] ++ NL :: [x68; x69] ++ NL :: [x7a] /\
  has_newline [x20] = false /\
  has_newline [x68; x69] = false /\
  exists cin2,
    Console.read (T := bytes) cin = (cin2, Ok [x34; x32]) /\
    Console.read_line cin2 = (IStream [x7a] goodbit, Ok [x68; x69]).
Proof.
  intros cin.
  split; [reflexivity |]. split; [reflexivity |]. split; [reflexivity |].
  split; [reflexivity |].
  exact (Console_read_then_read_line (T := bytes) cin [x20] [x68; x69] [x7a]
           eq_refl eq_refl eq_refl eq_refl).
Defined.

(** X20. A failure of the console is permanent (the class never clears the
    state of [std::cin]): whenever [read] or [read_line] throws, [std::cin]
    is left failed, and on a failed [std::cin] [read_line] and the [read]
    of a string or of a character throw again without consuming any
    input.  A failed [read] does not discard the rest of the line either. *)
Theorem Console_failure_is_permanent :
  (forall T (R : Readable T) cin cin' e,
     Console.read cin = (cin', Throw e) ->
     fail (cstate cin') = true /\ cin' = fst (extract cin)) /\
  (forall cin cin' e,
     Console.read_line cin = (cin', Throw e) -> fail (cstate cin') = true) /\
  (forall cin,
     fail (cstate cin) = true ->
     let failed := IStream (inp cin) (set_fail (cstate cin)) in
     (exists e, Console.read_line cin = (failed, Throw e)) /\
     (exists e, Console.read (T := bytes) cin = (failed, Throw e)) /\
     (exists e, Console.read (T := byte) cin = (failed, Throw e))).
Proof.
  split; [| split].
  - intros T R cin cin' e. unfold Console.read.
    destruct (extract cin) as [cin1 value]. cbn [fst].
    destruct (fail (cstate cin1)) eqn:Hf; [| discriminate].
    intros [= <- _]. split; [exact Hf | reflexivity].
  - intros cin cin' e. unfold Console.read_line.
    destruct (Console.getline cin []) as [cin1 ln].
    destruct (fail (cstate cin1)) eqn:Hf; [| discriminate].
    intros [= <- _]. exact Hf.
  - intros cin Hf failed. pose proof (fail_not_good _ Hf) as Hg.
    unfold Console.read_line, Console.getline, Console.read, extract,
      Readable_string, Readable_char.
    rewrite Hg. cbn [cstate]. rewrite fail_set_fail.
    repeat split; eexists; reflexivity.
Qed.

Lemma Console_failure_is_permanent_witness :
  exists cin1 cin2 e1 e2,
    Console.read (T := byte) (IStream [] goodbit) = (cin1, Throw e1) /\
    fail (cstate cin1) = true /\
    Console.read_line cin1 = (cin2, Throw e2) /\
    fail (cstate cin2) = true.
Proof.
  destruct Console_failure_is_permanent as (Hread & Hline & _).
  eexists _, _, _, _.
  assert (Console.read (T := byte) (IStream [] goodbit)
          = (IStream [] (IoState true true false),
             Throw (IOError_new "无法从控制台读取值"))) as H1 by reflexivity.
  assert (Console.read_line (IStream [] (IoState true true false))
          = (IStream [] (IoState true true false),
             Throw (IOError_new "无法从控制台读取"))) as H2 by reflexivity.
  split; [exact H1 |].
  split; [exact (proj1 (Hread _ _ _ _ _ H1)) |].
  split; [exact H2 |].
  exact (Hline _ _ _ H2).
Defined.

(** ** What a write can reach *)

Lemma ostream_insert_other_files w s d q :
  (forall fb, buf s = Some fb -> fb_path fb <> q) ->
  files (fst (ostream_insert w s d)) !! q = files w !! q /\
  fb_path <$> buf (snd (ostream_insert w s d)) = fb_path <$> buf s.
Proof.
  intros Hq. unfold ostream_insert, osentry, filebuf_write, setstate.
  destruct s as [[fb|] st]; cbn [buf state].
  all: destruct (good st); [| destruct (badbit st); split; reflexivity].
  all: destruct d as [|c d]; [split; reflexivity |]; cbn [buf state].
  - destruct (can_write fb); [| split; reflexivity].
    destruct (has_flag _ _);
      cbn [fst snd files set_files buf fb_set_pos fb_path fmap option_fmap option_map].
    all: rewrite lookup_insert_ne by (apply Hq; reflexivity); split; reflexivity.
  - split; reflexivity.
Qed.

(** X21. [write] and [write_line] change at most the file their stream is
    open on: every other path keeps its content (or its absence), and a
    closed stream changes no file at all.  The set of open handles is
    never changed by them. *)
Theorem write_touches_own_file_only {T} `{Writable T}
    (w : world) (f : FileStream) (value : T) (q : string) :
  (forall fb, buf (stream_ f) = Some fb -> fb_path fb <> q) ->
  (files (fst (fst (write w f value))) !! q = files w !! q /\
   open_fds (fst (fst (write w f value))) = open_fds w) /\
  (files (fst (fst (write_line w f value))) !! q = files w !! q /\
   open_fds (fst (fst (write_line w f value))) = open_fds w).
Proof.
  intros Hq.
  assert (files (fst (fst (write w f value))) !! q = files w !! q /\
          fb_path <$> buf (stream_ (snd (fst (write w f value))))
          = fb_path <$> buf (stream_ f)) as [Hw Hp].
  { unfold write. destruct (fail _); [split; reflexivity |].
    pose proof (ostream_insert_other_files w (stream_ f) (render value) q Hq) as Ho.
    destruct (ostream_insert _ _ _) as [w' s']. exact Ho. }
  split; [split; [exact Hw | apply write_handle] |].
  split; [| apply write_line_handle].
  unfold write_line.
  destruct (write w f value) as [[w1 f1] [u|e]]; cbn [fst snd] in *; [| exact Hw].
  assert (forall fb, buf (stream_ f1) = Some fb -> fb_path fb <> q) as Hq1.
  { intros fb Hb. rewrite Hb in Hp. cbn in Hp.
    destruct (buf (stream_ f)) as [fb0|] eqn:Hb0; [| discriminate Hp].
    injection Hp as ->. apply (Hq fb0 eq_refl). }
  pose proof (ostream_insert_other_files w1 (stream_ f1) (render NL) q Hq1) as [Ho _].
  destruct (ostream_insert _ _ _) as [w2 s2]. cbn [fst] in *. congruence.
Qed.

Lemma write_touches_own_file_only_witness :
  let w := World {["f" := [x61]; "g" := [x62]]} {[0%nat]} in
  let f := MkFileStream (FStream (Some (FileBuf 0 "f" (open_flags Write) 1)) goodbit) in
  (forall fb, buf (stream_ f) = Some fb -> fb_path fb <> "g"%string) /\
  files (fst (fst (write_line w f [x63]))) !! "g"%string = Some [x62].
Proof.
  intros w f.
  assert (forall fb, buf (stream_ f) = Some fb -> fb_path fb <> "g"%string) as Hq
    by (intros fb [= <-]; discriminate).
  split; [exact Hq |].
  destruct (write_touches_own_file_only w f [x63] "g" Hq) as [_ [Hl _]].
  rewrite Hl. reflexivity.
Defined.

(** ** No handle is left behind *)

(** X22. In every program state a client can reach with the operations of
    the class, the open handles are exactly the handles owned by live
    [FileStream] objects; once every object has been destroyed, no handle
    is open. *)
Theorem reachable_no_leak (P : program) :
  reachable P ->
  owned_open P /\ (objs P = ∅ -> open_fds (pw P) = ∅).
Proof.
  intros HP. destruct (reachable_ownership P HP) as [_ Ho].
  split; [exact Ho |]. intros Hempty.
  apply set_eq. intros h. rewrite (Ho h), elem_of_empty. split; [| tauto].
  intros [a [f [Hf _]]]. rewrite Hempty, lookup_empty in Hf. discriminate.
Qed.

Lemma reachable_no_leak_witness :
  let P0 := Program (World ∅ ∅) ∅ in
  exists w1 f,
    FileStream_new (pw P0) "f" Write = Ok (w1, f) /\
    let P1 := Program w1 (<[0%nat := f]> (objs P0)) in
    let P2 := Program (FileStream_destroy (pw P1) f) (delete 0%nat (objs P1)) in
    open_fds (pw P1) = {[0%nat]} /\
    reachable P2 /\ objs P2 = ∅ /\ open_fds (pw P2) = ∅.
Proof.
  intros P0. eexists _, _. split; [vm_compute; reflexivity |].
  intros P1 P2.
  assert (reachable P2) as HP2.
  { apply (reach_step P1 P2).
    - apply (reach_step P0 P1).
      + apply reach_init. split; reflexivity.
      + apply (step_new P0 0%nat "f" Write); reflexivity.
    - apply (step_destroy P1 0%nat). reflexivity. }
  assert (objs P2 = ∅) as Hempty by (vm_compute; reflexivity).
  split; [vm_compute; reflexivity |]. split; [exact HP2 |]. split; [exact Hempty |].
  exact (proj2 (reachable_no_leak P2 HP2) Hempty).
Defined.

(** ** Typed reads from a file *)

Lemma skipws_app (ws l : bytes) :
  forallb isspace ws = true -> skipws (ws ++ l) = skipws l.
Proof.
  induction ws as [|c ws IH]; intros Hws; [reflexivity |].
  cbn [forallb] in Hws. apply andb_prop in Hws as [Hc Hws].
  cbn [app skipws]. rewrite Hc. exact (IH Hws).
Qed.

Lemma token_app (t rest : bytes) :
  existsb isspace t = false ->
  at_token_end rest = true ->
  token (t ++ rest) = (t, rest).
Proof.
  intros Ht Hrest. induction t as [|c t IH].
  - destruct rest as [|c r]; [reflexivity |]. cbn [app token].
    cbn [at_token_end] in Hrest. rewrite Hrest. reflexivity.
  - cbn [existsb] in Ht. apply orb_false_elim in Ht as [Hc Ht].
    cbn [app token]. rewrite Hc, (IH Ht). reflexivity.
Qed.

(** The extraction of a string from good input that starts with blanks
    [ws], then a token [t], then [rest]. *)
Lemma extract_string_token (ws t rest : bytes) (st : iostate) :
  good st = true ->
  forallb isspace ws = true ->
  t <> [] ->
  existsb isspace t = false ->
  at_token_end rest = true ->
  extract (T := bytes) (IStream (ws ++ t ++ rest) st) =
  (IStream rest (match rest with [] => set_eof st | _ => st end), t).
Proof.
  intros Hg Hws Hne Ht Hrest. unfold extract, Readable_string. cbn [cstate inp].
  rewrite Hg, (skipws_app _ _ Hws).
  destruct t as [|c t]; [congruence |].
  cbn [existsb] in Ht. apply orb_false_elim in Ht as [Hc Ht].
  cbn [app skipws]. rewrite Hc.
  change (c :: t ++ rest) with ((c :: t) ++ rest).
  rewrite token_app; [| cbn [existsb]; rewrite Hc; exact Ht | exact Hrest].
  destruct rest; reflexivity.
Qed.

Lemma length_taken (ws t rest : bytes) :
  (length (ws ++ t ++ rest) - length rest = length ws + length t)%nat.
Proof. rewrite !length_app. lia. Qed.

Lemma read_string_at (w : world) (fb : filebuf) (st : iostate) (ws t rest : bytes) :
  can_read fb = true ->
  good st = true ->
  drop (fb_pos fb) (file_content w (fb_path fb)) = ws ++ t ++ rest ->
  forallb isspace ws = true ->
  t <> [] ->
  existsb isspace t = false ->
  at_token_end rest = true ->
  read (T := bytes) w (MkFileStream (FStream (Some fb) st)) =
  (MkFileStream
     (FStream (Some (fb_set_pos fb (fb_pos fb + (length ws + length t))))
              (match rest with [] => set_eof st | _ => st end)),
   Some t).
Proof.
  intros Hr Hg Hav Hws Hne Ht Hrest.
  unfold read. cbn [stream_ buf state]. unfold filebuf_avail. rewrite Hr, Hav.
  rewrite extract_string_token by assumption. cbn [inp cstate].
  rewrite length_taken.
  replace (fail (match rest with [] => set_eof st | _ => st end)) with false
    by (destruct rest; symmetry; exact (good_not_fail _ Hg)).
  reflexivity.
Qed.

(** X23. [read<std::string>] on a good file stream open for input skips
    the whitespace in front, returns the characters up to the next
    whitespace or the end of the file, and leaves the position right
    behind them; [eofbit] is set when the token ran into the end of the
    file. *)
Theorem read_string_token (w : world) (f : FileStream) (fb : filebuf)
    (ws t rest : bytes) :
  buf (stream_ f) = Some fb ->
  can_read fb = true ->
  good (state (stream_ f)) = true ->
  drop (fb_pos fb) (file_content w (fb_path fb)) = ws ++ t ++ rest ->
  forallb isspace ws = true ->
  t <> [] ->
  existsb isspace t = false ->
  at_token_end rest = true ->
  read (T := bytes) w f =
  (MkFileStream
     (FStream (Some (fb_set_pos fb (fb_pos fb + (length ws + length t))))
              (match rest with [] => set_eof (state (stream_ f)) | _ => state (stream_ f) end)),
   Some t).
Proof.
  intros Hb Hr Hg Hav Hws Hne Ht Hrest.
  destruct f as [[b st]]. cbn [stream_ buf state] in *. subst b.
  apply read_string_at; assumption.
Qed.

Lemma read_string_token_witness :
  let w := World {["f" := [x20; x34; x32; NL; x61]]} {[0%nat]} in
  let fb := FileBuf 0 "f" (open_flags Read) 0 in
  let f := MkFileStream (FStream (Some fb) goodbit) in
  buf (stream_ f) = Some fb /\
  can_read fb = true /\
  good (state (stream_ f)) = true /\
  drop (fb_pos fb) (file_content w (fb_path fb)) = [x20] ++ [x34; x32] ++ [NL; x61] /\
  forallb isspace [x20] = true /\
  [x34; x32] <> [] /\
  existsb isspace [x34; x32] = false /\
  at_token_end [NL; x61] = true /\
  read (T := bytes) w f =
  (MkFileStream (FStream (Some (FileBuf 0 "f" (open_flags Read) 3)) goodbit),
   Some [x34; x32]).
Proof.
  intros w fb f.
  assert ([x34; x32] <> ([] : bytes)) as Hne by discriminate.
  repeat (split; [first [reflexivity | exact Hne] |]).
  exact (read_string_token w f fb [x20] [x34; x32] [NL; x61]
           eq_refl eq_refl eq_refl eq_refl eq_refl Hne eq_refl eq_refl).
Defined.

(** X24. Unlike [Console::read], the typed [read] of a file stream leaves
    the rest of the line in place: a [read_line] right after a successful
    [read<std::string>] returns what follows the token on its line (the
    empty string when the token ended the line), not the next line. *)
Theorem read_then_read_line (w : world) (f : FileStream) (fb : filebuf)
    (ws t junk more : bytes) :
  buf (stream_ f) = Some fb ->
  can_read fb = true ->
  good (state (stream_ f)) = true ->
  drop (fb_pos fb) (file_content w (fb_path fb)) = ws ++ t ++ junk ++ NL :: more ->
  forallb isspace ws = true ->
  t <> [] ->
  existsb isspace t = false ->
  at_token_end (junk ++ NL :: more) = true ->
  has_newline junk = false ->
  exists f1 f2,
    read (T := bytes) w f = (f1, Some t) /\
    read_line w f1 = (f2, Some junk).
Proof.
  intros Hb Hr Hg Hav Hws Hne Ht Hrest Hj.
  destruct f as [[b st]]. cbn [stream_ buf state] in *. subst b.
  rewrite (read_string_at w fb st ws t (junk ++ NL :: more)) by assumption.
  eexists _, _. split; [reflexivity |].
  replace (match junk ++ NL :: more with
           | [] => set_eof st
           | _ => st
           end) with st by (destruct junk; reflexivity).
  rewrite read_line_good by assumption.
  cbn [fb_set_pos fb_pos fb_path].
  rewrite <- drop_drop, Hav.
  replace (drop (length ws + length t) (ws ++ t ++ junk ++ NL :: more))
    with (junk ++ NL :: more)
    by (rewrite app_assoc, <- length_app, drop_app_length; reflexivity).
  rewrite (getline_scan_line _ _ Hj). reflexivity.
Qed.

Lemma read_then_read_line_witness :
  let w := World {["f" := [x34; x32; NL; x61; NL]]} {[0%nat]} in
  let fb := FileBuf 0 "f" (open_flags Read) 0 in
  let f := MkFileStream (FStream (Some fb) goodbit) in
  buf (stream_ f) = Some fb /\
  can_read fb = true /\
  good (state (stream_ f)) = true /\
  drop (fb_pos fb) (file_content w (fb_path fb)) = [] ++ [x34; x32] ++ [] ++ NL :: [x61; NL] /\
  forallb isspace [] = true /\
  [x34; x32] <> [] /\
  existsb isspace [x34; x32] = false /\
  at_token_end ([] ++ NL :: [x61; NL]) = true /\
  has_newline [] = false /\
  exists f1 f2,
    read (T := bytes) w f = (f1, Some [x34; x32]) /\
    read_line w f1 = (f2, Some []).
Proof.
  intros w fb f.
  assert ([x34; x32] <> ([] : bytes)) as Hne by discriminate.
  repeat (split; [first [reflexivity | exact Hne] |]).
  exact (read_then_read_line w f fb [] [x34; x32] [] [x61; NL]
           eq_refl eq_refl eq_refl eq_refl eq_refl Hne eq_refl eq_refl eq_refl).
Defined.
